(** * Counterexample-guided synthesis of finite-state controllers

    A shallow embedding of [algorithmic/constraint/algo_constraint.py]
    (classes [AlgorithmicSolver], [AlgorithmicPolicyRunner],
    [BoolSatHelper]) and of [algorithmic/brute_force.py]
    ([PolicyEnumerator], [AlgorithmicPolicy] and [solve_env]).

    The gym environment and the pysmt solver are collaborators outside the
    repository: the environment is a record of its [reset] and [step]
    methods over an explicit environment state, and the solver is the list
    of formulas asserted so far together with a [backend] function that
    answers [solve()].  Python's mutable objects become explicit state
    records threaded through a small state-and-exception monad.

    Rewards are rationals: the program only adds them and compares them
    with 0 and with the reward threshold.  A loop that Python may run
    forever takes a fuel argument and ends in [NoFuel] when it runs out;
    bounded loops keep their own counters. *)

From Stdlib Require Import ZArith QArith Lia.
From stdpp Require Import base option list gmap sets countable.

Set Default Proof Using "Type".
#[local] Set Warnings "-clear-no-such-hyp".
Local Open Scope nat_scope.

(** ** pysmt symbols and formulas *)

(** The three rule tables built by [BoolSatHelper.__init__]. *)
Inductive rule_name := dir_rule | write_rule | state_rule.

(** A pysmt [Symbol] is identified by its name.  [_rule_vars] names a
    one-bit rule [name_state_char] and the members of a one-hot rule
    [name_state_char__out]; the name is kept in structured form, the
    format being one-to-one on these four components. *)
Record symbol := Symbol {
  sym_rule : rule_name;
  sym_state : nat;
  sym_char : nat;
  sym_out : option nat
}.

Global Instance rule_name_eq_dec : EqDecision rule_name.
Proof. solve_decision. Defined.

Global Instance rule_name_countable : Countable rule_name.
Proof.
  refine (inj_countable'
    (fun r => match r with dir_rule => 0 | write_rule => 1 | state_rule => 2 end)
    (fun n => match n with 0 => dir_rule | 1 => write_rule | _ => state_rule end) _).
  by intros [].
Defined.

Global Instance symbol_eq_dec : EqDecision symbol.
Proof. solve_decision. Defined.

Global Instance symbol_countable : Countable symbol.
Proof.
  refine (inj_countable'
    (fun s => (sym_rule s, sym_state s, sym_char s, sym_out s))
    (fun t => match t with (r, s, c, o) => Symbol r s c o end) _).
  by intros [].
Defined.

(** The fragment of pysmt's formula language the program builds:
    [Symbol], [sc.Not], [sc.And] and [sc.ExactlyOne]. *)
#[local] Unset Elimination Schemes.
Inductive formula :=
  | FSym (v : symbol)
  | FNot (f : formula)
  | FAnd (fs : list formula)
  | FExactlyOne (fs : list formula).
#[local] Set Elimination Schemes.

(** Induction principle that reaches below the argument lists. *)
Section formula_ind.
Variable P : formula -> Prop.
Hypothesis HSym : forall v, P (FSym v).
Hypothesis HNot : forall f, P f -> P (FNot f).
Hypothesis HAnd : forall fs, Forall P fs -> P (FAnd fs).
Hypothesis HOne : forall fs, Forall P fs -> P (FExactlyOne fs).

Fixpoint formula_ind' (f : formula) : P f :=
  match f with
  | FSym v => HSym v
  | FNot g => HNot g (formula_ind' g)
  | FAnd fs =>
      HAnd fs ((fix go (l : list formula) : Forall P l :=
                  match l with
                  | [] => Forall_nil_2 P
                  | x :: r => Forall_cons_2 P x r (formula_ind' x) (go r)
                  end) fs)
  | FExactlyOne fs =>
      HOne fs ((fix go (l : list formula) : Forall P l :=
                  match l with
                  | [] => Forall_nil_2 P
                  | x :: r => Forall_cons_2 P x r (formula_ind' x) (go r)
                  end) fs)
  end.
End formula_ind.

Fixpoint formula_to_tree (f : formula) : gen_tree symbol :=
  match f with
  | FSym v => GenLeaf v
  | FNot g => GenNode 0 [formula_to_tree g]
  | FAnd fs => GenNode 1 (map formula_to_tree fs)
  | FExactlyOne fs => GenNode 2 (map formula_to_tree fs)
  end.

Fixpoint tree_to_formula (t : gen_tree symbol) : formula :=
  match t with
  | GenLeaf v => FSym v
  | GenNode 0 [t'] => FNot (tree_to_formula t')
  | GenNode 1 ts => FAnd (map tree_to_formula ts)
  | GenNode _ ts => FExactlyOne (map tree_to_formula ts)
  end.

Lemma tree_to_formula_to_tree f : tree_to_formula (formula_to_tree f) = f.
Proof.
  induction f as [v|g IH|fs IH|fs IH] using formula_ind'; simpl.
  - done.
  - by rewrite IH.
  - f_equal. induction IH as [|x r Hx _ IHr]; simpl; [done|]. by rewrite Hx, IHr.
  - f_equal. induction IH as [|x r Hx _ IHr]; simpl; [done|]. by rewrite Hx, IHr.
Qed.

Global Instance formula_eq_dec : EqDecision formula.
Proof.
  intros f g.
  destruct (decide (formula_to_tree f = formula_to_tree g)) as [E|N].
  - left. by rewrite <- (tree_to_formula_to_tree f), E, tree_to_formula_to_tree.
  - right. by intros ->.
Defined.

Global Instance formula_countable : Countable formula :=
  inj_countable' formula_to_tree tree_to_formula tree_to_formula_to_tree.

(** A model returned by the solver: the value of each symbol. *)
Definition assignment := symbol -> bool.

(** Number of formulas of a list that hold; [sc.ExactlyOne] asks for one. *)
Definition count_true (ev : formula -> bool) (fs : list formula) : nat :=
  foldr (fun f n => if ev f then S n else n) 0 fs.

(** [solver.get_py_value(formula)] under a model. *)
Fixpoint eval (a : assignment) (f : formula) : bool :=
  match f with
  | FSym v => a v
  | FNot g => negb (eval a g)
  | FAnd fs => forallb (eval a) fs
  | FExactlyOne fs => Nat.eqb (count_true (eval a) fs) 1
  end.

(** ** Exceptions and the state monad *)

(** The Python exceptions the program can raise.  [SolverError] stands for
    whatever pysmt raises when asked for the value of [None] or for a value
    before any model exists. *)
Inductive exn :=
  | UnsatException | KeyError | AssertionError | NameError | TypeError | SolverError.

Global Instance exn_eq_dec : EqDecision exn.
Proof. solve_decision. Defined.

(** Outcome of running a piece of the program from a state: a normal return,
    a raised exception (the mutations done so far persist), or a loop that
    was still running when the model's fuel ran out. *)
Inductive result (S A : Type) :=
  | Ok (a : A) (s : S)
  | Raise (e : exn) (s : S)
  | NoFuel.
Arguments Ok {S A} a s.
Arguments Raise {S A} e s.
Arguments NoFuel {S A}.

Definition M (S A : Type) : Type := S -> result S A.

Definition ret {S A} (a : A) : M S A := fun s => Ok a s.
Definition bind {S A B} (m : M S A) (k : A -> M S B) : M S B :=
  fun s => match m s with
           | Ok a s' => k a s'
           | Raise e s' => Raise e s'
           | NoFuel => NoFuel
           end.
Definition raise {S A} (e : exn) : M S A := fun s => Raise e s.
Definition out_of_fuel {S A} : M S A := fun _ => NoFuel.
Definition get {S} : M S S := fun s => Ok s s.
Definition modify {S} (f : S -> S) : M S unit := fun s => Ok tt (f s).

(** [try: body except UnsatException: ...]: [None] when the body raised
    [UnsatException], which is thereby caught. *)
Definition try_unsat {S A} (body : M S A) : M S (option A) :=
  fun s => match body s with
           | Ok a s' => Ok (Some a) s'
           | Raise UnsatException s' => Ok None s'
           | Raise e s' => Raise e s'
           | NoFuel => NoFuel
           end.

(** Running a computation on a component of a larger state. *)
Definition zoom {S T A} (proj : T -> S) (upd : S -> T -> T) (m : M S A) : M T A :=
  fun t => match m (proj t) with
           | Ok a s' => Ok a (upd s' t)
           | Raise e s' => Raise e (upd s' t)
           | NoFuel => NoFuel
           end.

Declare Scope monad_scope.
Delimit Scope monad_scope with monad.
Notation "x <- m ;; k" := (bind m (fun x => k))
  (at level 100, m at next level, right associativity) : monad_scope.
Notation "m ;; k" := (bind m (fun _ => k))
  (at level 100, right associativity) : monad_scope.
Local Open Scope monad_scope.

(** ** The environment and the solver *)

(** An action is the tuple [(dirno, do_write, to_write)] of [get_action]. *)
Definition action : Type := nat * nat * Z.

(** [env.spec]: the task's success criteria. *)
Record EnvSpec := {
  reward_threshold : Q;
  trials : nat
}.

(** The gym environment, over an explicit environment state [E]:
    [action_space] gives [(dirs.n, write_mode.n, write_chars.n)], [reset]
    returns the first observation and [step] returns
    [(obs, reward, done)]. *)
Record AlgorithmicEnv (E : Type) := {
  spec : EnvSpec;
  action_space : nat * nat * nat;
  reset : E -> nat * E;
  step : E -> action -> (nat * Q * bool) * E
}.
Arguments spec {E} _.
Arguments action_space {E} _.
Arguments reset {E} _ _.
Arguments step {E} _ _ _.

(** The pysmt solver session: the formulas asserted so far and the model of
    the last successful [solve()]. *)
Record Solver := {
  assertions : list formula;
  model : option assignment
}.

Definition add_assertion (f : formula) (s : Solver) : Solver :=
  {| assertions := assertions s ++ [f]; model := model s |}.

(** A value of a rule dictionary: [None] (one-valued domain), one [Symbol]
    (two-valued domain) or a list of symbols (one-hot). *)
Inductive rule_val :=
  | VNone
  | VSym (f : formula)
  | VList (fs : list formula).

Definition rule_table := gmap (nat * nat) rule_val.

Record BoolSatHelper := {
  solver : Solver;
  n_chars : nat;
  n_states : nat;
  direction_rules : rule_table;
  write_rules : rule_table;
  state_rules : rule_table;
  dirty_variables : gset formula;
  dirty_buffer : gset formula
}.

Definition set_solver_of (s : Solver) (h : BoolSatHelper) : BoolSatHelper :=
  {| solver := s; n_chars := n_chars h; n_states := n_states h;
     direction_rules := direction_rules h; write_rules := write_rules h;
     state_rules := state_rules h;
     dirty_variables := dirty_variables h; dirty_buffer := dirty_buffer h |}.

Definition set_dirty (dv db : gset formula) (h : BoolSatHelper) : BoolSatHelper :=
  {| solver := solver h; n_chars := n_chars h; n_states := n_states h;
     direction_rules := direction_rules h; write_rules := write_rules h;
     state_rules := state_rules h;
     dirty_variables := dv; dirty_buffer := db |}.

(** Messages passed to [logging]. *)
Inductive log_event :=
  | WarnDirections (n : nat)
  | WarnOneValue (name : rule_name)
  | WarnSmallDomain
  | WarnExhausted (i : nat)
  | InfoSolved (i : nat)
  | InfoProgress (i : nat)
  | WarnUsedUp (maxiters : option nat)
  | WarnSus (max_eps : N)
  | InfoFailedAfter (goodeps : N).

Global Instance log_event_eq_dec : EqDecision log_event.
Proof. solve_decision. Defined.

Definition logging (ev : log_event) : M (list log_event) unit :=
  modify (fun l => l ++ [ev]).

(** ** [BoolSatHelper]: construction *)

(** [itertools.product(self.states, self.chars_plus)]. *)
Definition product (xs ys : list nat) : list (nat * nat) :=
  x ← xs; y ← ys; [(x, y)].

Definition rule_symbol (name : rule_name) (input_tup : nat * nat) (out : option nat) : formula :=
  FSym (Symbol name input_tup.1 input_tup.2 out).

(** One value of the dictionary built by [_rule_vars]. *)
Definition rule_value (name : rule_name) (to_domain : list nat) (input_tup : nat * nat)
    : rule_val :=
  if decide (length to_domain = 2) then VSym (rule_symbol name input_tup None)
  else if decide (2 < length to_domain) then
    VList ((fun output_val => rule_symbol name input_tup (Some output_val)) <$> to_domain)
  else VNone.

Definition _rule_vars (states chars_plus : list nat) (name : rule_name) (to_domain : list nat)
    : M (list log_event) rule_table :=
  if decide (1 <= length to_domain) then
    (if decide (length to_domain = 1) then logging (WarnOneValue name) else ret tt);;
    ret (foldl (fun rules input_tup => <[input_tup := rule_value name to_domain input_tup]> rules)
               ∅ (product states chars_plus))
  else raise AssertionError.

(** The running program: the helper object, the state of the environment
    and the log. *)
Record World (E : Type) := {
  helper : BoolSatHelper;
  env_st : E;
  log : list log_event
}.
Arguments helper {E} _.
Arguments env_st {E} _.
Arguments log {E} _.

Section Program.
Context {E : Type}.

(** [solver.solve()] of the chosen backend: a model of the asserted
    formulas, or [None] for unsat. *)
Variable backend : list formula -> option assignment.

(** The global [env] of the script. *)
Variable env : AlgorithmicEnv E.

Definition on_helper {A} (m : M BoolSatHelper A) : M (World E) A :=
  zoom helper (fun h w => {| helper := h; env_st := env_st w; log := log w |}) m.

Definition on_log {A} (m : M (list log_event) A) : M (World E) A :=
  zoom log (fun l w => {| helper := helper w; env_st := env_st w; log := l |}) m.

Definition on_env {A} (f : E -> A * E) : M (World E) A :=
  fun w => let (a, e) := f (env_st w) in
           Ok a {| helper := helper w; env_st := e; log := log w |}.

(** The inner loop of [add_base_constraints] over [rules.itervalues()]. *)
Fixpoint assert_just_one (varsets : list rule_val) : M BoolSatHelper unit :=
  match varsets with
  | [] => ret tt
  | VList varset :: rest =>
      modify (fun h => set_solver_of (add_assertion (FExactlyOne varset) (solver h)) h);;
      assert_just_one rest
  | _ :: _ => raise TypeError
  end.

(** The outer loop of [add_base_constraints]; [rules.itervalues()] is taken
    in the order of [map_to_list]. *)
Fixpoint base_constraints_loop (pairs : list (list nat * rule_table)) : M (World E) unit :=
  match pairs with
  | [] => ret tt
  | (domain, rules) :: rest =>
      (if decide (length domain < 2) then on_log (logging WarnSmallDomain)
       else if decide (length domain = 2) then ret tt
       else on_helper (assert_just_one (snd <$> map_to_list rules)));;
      base_constraints_loop rest
  end.

Definition add_base_constraints (dirs chars_plus states : list nat) : M (World E) unit :=
  h <- on_helper get;;
  base_constraints_loop
    [(dirs, direction_rules h); (chars_plus, write_rules h); (states, state_rules h)].

(** [BoolSatHelper.__init__(solver, env, n_states)]. *)
Definition BoolSatHelper_init (slv : Solver) (n_states : nat) (e0 : E) : result (World E) unit :=
  let '(dirs_n, _, write_chars_n) := action_space env in
  let dirs := seq 0 dirs_n in
  let n_chars := write_chars_n in
  let chars_plus := seq 0 (n_chars + 1) in
  let states := seq 0 n_states in
  let build : M (list log_event) BoolSatHelper :=
    (if decide (dirs_n = 2) then ret tt else logging (WarnDirections dirs_n));;
    direction_rules <- _rule_vars states chars_plus dir_rule dirs;;
    write_rules <- _rule_vars states chars_plus write_rule chars_plus;;
    state_rules <- _rule_vars states chars_plus state_rule states;;
    ret {| solver := slv; n_chars := n_chars; n_states := n_states;
           direction_rules := direction_rules; write_rules := write_rules;
           state_rules := state_rules;
           dirty_variables := ∅; dirty_buffer := ∅ |} in
  match build [] with
  | Ok h l => add_base_constraints dirs chars_plus states {| helper := h; env_st := e0; log := l |}
  | Raise e l =>
      Raise e {| helper := {| solver := slv; n_chars := n_chars; n_states := n_states;
                              direction_rules := ∅; write_rules := ∅; state_rules := ∅;
                              dirty_variables := ∅; dirty_buffer := ∅ |};
                 env_st := e0; log := l |}
  | NoFuel => NoFuel
  end.

(** [AlgorithmicSolver.__init__]: a fresh solver session, then the helper. *)
Definition AlgorithmicSolver_init (n_states : nat) (e0 : E) : result (World E) unit :=
  BoolSatHelper_init {| assertions := []; model := None |} n_states e0.

(** ** [BoolSatHelper]: the candidate extractor *)

Definition get_py_value (thing : formula) : M BoolSatHelper bool :=
  fun h => match model (solver h) with
           | Some a => Ok (eval a thing) h
           | None => Raise SolverError h
           end.

(** The [for ... else] of [_lookup]: index and formula of the first member
    that holds, [assert False] when the list is exhausted. *)
Fixpoint lookup_list (thing : list formula) (i : nat) : M BoolSatHelper (nat * formula) :=
  match thing with
  | [] => raise AssertionError
  | formula :: rest =>
      v <- get_py_value formula;;
      if v then ret (i, formula) else lookup_list rest (S i)
  end.

Definition add_dirty (buff : bool) (form : formula) (h : BoolSatHelper) : BoolSatHelper :=
  if buff then set_dirty (dirty_variables h) (dirty_buffer h ∪ {[form]}) h
  else set_dirty (dirty_variables h ∪ {[form]}) (dirty_buffer h) h.

Definition _lookup (rules : BoolSatHelper -> rule_table) (obs state : nat) (buff : bool)
    : M BoolSatHelper nat :=
  h <- get;;
  match rules h !! (state, obs) with
  | None => raise KeyError
  | Some thing =>
      rf <- match thing with
            | VList l => lookup_list l 0
            | VSym f =>
                val <- get_py_value f;;
                ret (if val then 1 else 0, if val then f else FNot f)
            | VNone => raise SolverError
            end;;
      modify (add_dirty buff rf.2);;
      ret rf.1
  end.

Definition get_action (obs state : nat) : M BoolSatHelper action :=
  h <- get;;
  (if decide (dirty_buffer h = ∅) then ret tt
   else modify (fun h => set_dirty (dirty_variables h ∪ dirty_buffer h) ∅ h));;
  dirno <- _lookup direction_rules obs state true;;
  writeno <- _lookup write_rules obs state false;;
  let do_write := if decide (writeno = n_chars h) then 0 else 1 in
  let to_write := Z.min (Z.of_nat writeno) (Z.of_nat (n_chars h) - 1) in
  ret (dirno, do_write, to_write).

Definition get_state (obs state : nat) : M BoolSatHelper nat :=
  h <- get;;
  if decide (n_states h = 1) then ret 0
  else _lookup state_rules obs state true.

Definition clear_dirty : M BoolSatHelper unit :=
  modify (set_dirty ∅ ∅).

(** The nogood of [resolve]: [sc.Not(sc.And( *dirty_variables))], the set
    being enumerated in the order of [elements]. *)
Definition nogood_of (dirty : gset formula) : formula :=
  FNot (FAnd (elements dirty)).

Definition resolve : M BoolSatHelper unit :=
  h <- get;;
  (if decide (dirty_variables h = ∅) then ret tt
   else modify (fun h => set_solver_of
                          (add_assertion (nogood_of (dirty_variables h)) (solver h)) h));;
  modify (set_dirty ∅ ∅);;
  h <- get;;
  match backend (assertions (solver h)) with
  | Some a =>
      modify (set_solver_of {| assertions := assertions (solver h); model := Some a |})
  | None =>
      modify (set_solver_of {| assertions := assertions (solver h); model := None |});;
      raise UnsatException
  end.

(** ** [AlgorithmicPolicyRunner.run_episode] *)

(** One pass through the body of [while not done]. *)
Definition episode_step (obs state : nat) : M (World E) (nat * (nat * Q * bool)) :=
  action <- on_helper (get_action obs state);;
  state' <- on_helper (get_state obs state);;
  r <- on_env (fun e => step env e action);;
  ret (state', r).

(** The loop [while not done] with the locals [obs], [state] and
    [total_reward]; [fuel] bounds the number of steps. *)
Fixpoint episode_loop (fuel : nat) (obs state : nat) (total_reward : Q)
    : M (World E) (bool * Q) :=
  match fuel with
  | 0 => out_of_fuel
  | S fuel' =>
      sr <- episode_step obs state;;
      let '(state', (obs', reward, done)) := sr in
      let total_reward' := (total_reward + reward)%Q in
      if done then ret (negb (Qle_bool reward 0), total_reward')
      else episode_loop fuel' obs' state' total_reward'
  end.

Definition run_episode (fuel : nat) : M (World E) (bool * Q) :=
  obs <- on_env (reset env);;
  episode_loop fuel obs 0 0%Q.

(** ** [AlgorithmicSolver.try_model] *)

(** The locals of [try_model]; [success] and [reward] are unbound until
    the first episode has run. *)
Record try_locals := {
  tl_i : N;
  tl_goodeps : N;
  tl_last : option (bool * Q)
}.

Definition qualifies (reward : Q) : bool :=
  Qle_bool (reward_threshold (spec env)) reward.

(** The loop [while i < max_eps]; [fuel] bounds the number of episodes the
    model runs and [efuel] the steps of each. *)
Fixpoint try_model_loop (max_eps : N) (efuel fuel : nat) (l : try_locals)
    : M (World E) try_locals :=
  if (tl_i l <? max_eps)%N then
    match fuel with
    | 0 => out_of_fuel
    | S fuel' =>
        sr <- run_episode efuel;;
        let '(success, reward) := sr in
        let i := (tl_i l + 1)%N in
        if negb success then
          ret {| tl_i := i; tl_goodeps := tl_goodeps l; tl_last := Some sr |}
        else
          let goodeps := (tl_goodeps l + 1)%N in
          let l' := {| tl_i := i; tl_goodeps := goodeps; tl_last := Some sr |} in
          if qualifies reward then ret l'
          else on_helper clear_dirty;; try_model_loop max_eps efuel fuel' l'
    end
  else ret l.

Definition try_model_with (max_eps : N) (efuel : nat) : M (World E) bool :=
  l <- try_model_loop max_eps efuel efuel {| tl_i := 0; tl_goodeps := 0; tl_last := None |};;
  match tl_last l with
  | None => raise NameError
  | Some (_, reward) =>
      if qualifies reward then ret true
      else
        (if decide (tl_i l = max_eps) then on_log (logging (WarnSus max_eps)) else ret tt);;
        (if decide (tl_goodeps l = 0%N) then ret tt
         else on_log (logging (InfoFailedAfter (tl_goodeps l))));;
        ret false
  end.

(** The failsafe [max_eps = 100000]. *)
Definition max_eps : N := 100000.

(** [try_model]; [efuel] bounds both the steps of an episode and the
    number of episodes the model runs. *)
Definition try_model (efuel : nat) : M (World E) bool :=
  try_model_with max_eps efuel.

(** ** [AlgorithmicSolver.solve] *)

(** [i < maxiters], where [None] is the default [float('inf')]. *)
Definition below (i : nat) (maxiters : option nat) : bool :=
  match maxiters with
  | None => true
  | Some m => i <? m
  end.

(** The loop [while 1 and i < maxiters]; [fuel] bounds the number of
    iterations and [efuel] the steps of an episode. *)
Fixpoint solve_loop (efuel fuel : nat) (maxiters : option nat) (i : nat)
    : M (World E) bool :=
  if below i maxiters then
    match fuel with
    | 0 => out_of_fuel
    | S fuel' =>
        let i := i + 1 in
        r <- try_unsat (on_helper resolve);;
        match r with
        | None => on_log (logging (WarnExhausted i));; ret false
        | Some _ =>
            success <- try_model efuel;;
            if success then on_log (logging (InfoSolved i));; ret true
            else
              (if decide (i mod 500 = 0) then on_log (logging (InfoProgress i)) else ret tt);;
              solve_loop efuel fuel' maxiters i
        end
    end
  else on_log (logging (WarnUsedUp maxiters));; ret false.

Definition solve (efuel fuel : nat) (maxiters : option nat) : M (World E) bool :=
  solve_loop efuel fuel maxiters 0.
End Program.

(** * [brute_force.py]: running an enumerated policy *)

Module BruteForce.

Definition NO_OUTPUT : Z := (-1)%Z.

(** [AlgorithmicPolicy]: the direction, output and state policies, each a
    function of [(obs, state)]. *)
Record AlgorithmicPolicy := {
  direction_policy : nat -> nat -> nat;
  output_policy : nat -> nat -> Z;
  state_policy : nat -> nat -> nat
}.

Definition get_action (pol : AlgorithmicPolicy) (obs state : nat) : action :=
  let direction := direction_policy pol obs state in
  let output := output_policy pol obs state in
  if decide (output = NO_OUTPUT) then (direction, 0, 0%Z) else (direction, 1, output).

Section Run.
Context {E : Type}.
Variable env : AlgorithmicEnv E.
Variable pol : AlgorithmicPolicy.

Definition env_call {A} (f : E -> A * E) : M E A :=
  fun e => let (a, e') := f e in Ok a e'.

Fixpoint episode_loop (fuel : nat) (obs state : nat) (total_reward : Q) : M E (bool * Q) :=
  match fuel with
  | 0 => out_of_fuel
  | S fuel' =>
      let action := get_action pol obs state in
      let state' := state_policy pol obs state in
      r <- env_call (fun e => step env e action);;
      let '(obs', reward, done) := r in
      let total_reward' := (total_reward + reward)%Q in
      if done then ret (negb (Qle_bool reward 0), total_reward')
      else episode_loop fuel' obs' state' total_reward'
  end.

Definition run_episode (fuel : nat) : M E (bool * Q) :=
  obs <- env_call (reset env);;
  episode_loop fuel obs 0 0%Q.

(** The loop [while reward_countdown] of [AlgorithmicPolicy.run] and the
    final [return reward_countdown == 0]. *)
Fixpoint run_loop (efuel fuel : nat) (reward_countdown : nat) : M E bool :=
  if decide (reward_countdown = 0) then ret true
  else
    match fuel with
    | 0 => out_of_fuel
    | S fuel' =>
        sr <- run_episode efuel;;
        let '(success, reward) := sr in
        if negb success then ret false
        else
          let seen_reward_thresh := Qle_bool (reward_threshold (spec env)) reward in
          if seen_reward_thresh then run_loop efuel fuel' (reward_countdown - 1)
          else run_loop efuel fuel' reward_countdown
    end.

Definition run (efuel fuel : nat) : M E bool :=
  run_loop efuel fuel (trials (spec env)).
End Run.
End BruteForce.

(** * [brute_force.py]: enumerating the policies *)

Module Enumerator.

(** A policy function built by one of the two factories, called as
    [policy(obs, state)]; [None] is the [IndexError] of indexing the image
    out of range. *)
Definition subpolicy (A : Type) : Type := nat -> nat -> option A.

Definition simple_policy_factory {A} (image : list A) : subpolicy A :=
  fun obs state => image !! state.

Definition policy_factory {A} (image : list A) (n : nat) : subpolicy A :=
  fun obs state => image !! (state * n + obs).

(** [itertools.product(codomain, repeat=repeat)]: the tuples in
    lexicographic order, the first component changing slowest. *)
Fixpoint product_repeat {A} (codomain : list A) (repeat : nat) : list (list A) :=
  match repeat with
  | 0 => [[]]
  | S k => x ← codomain; cons x <$> product_repeat codomain k
  end.

Record PolicyEnumerator := {
  dirs : list nat;
  chars : list Z;
  n_chars : nat;
  n_inputs : nat;
  n_outputs : nat;
  chars_plus : list Z
}.

(** [PolicyEnumerator.__init__(env)]. *)
Definition PolicyEnumerator_init {E : Type} (env : AlgorithmicEnv E) : PolicyEnumerator :=
  let '(dirs_n, _, write_chars_n) := action_space env in
  let chars := Z.of_nat <$> seq 0 write_chars_n in
  {| dirs := seq 0 dirs_n;
     chars := chars;
     n_chars := write_chars_n;
     n_inputs := write_chars_n + 1;
     n_outputs := write_chars_n + 1;
     chars_plus := (-1)%Z :: chars |}.

(** The generator [_enumerate_subpolicies], as the list of what it yields:
    the policies that ignore the observation, then those that read it. *)
Definition _enumerate_subpolicies {A} (self : PolicyEnumerator) (codomain : list A)
    (n_states : nat) : list (subpolicy A) :=
  (simple_policy_factory <$> product_repeat codomain n_states) ++
  ((fun image => policy_factory image (n_inputs self))
     <$> product_repeat codomain (n_states * n_inputs self)).

Definition enumerate_direction_policies (self : PolicyEnumerator) (n_states : nat)
    : list (subpolicy nat) :=
  _enumerate_subpolicies self (dirs self) n_states.

Definition enumerate_output_policies (self : PolicyEnumerator) (n_states : nat)
    : list (subpolicy Z) :=
  _enumerate_subpolicies self (chars_plus self) n_states.

Definition enumerate_state_policies (self : PolicyEnumerator) (n_states : nat)
    : list (subpolicy nat) :=
  if decide (n_states = 1) then [fun _ _ => Some 0]
  else _enumerate_subpolicies self (seq 0 n_states) n_states.

(** An [AlgorithmicPolicy] built from enumerated policy functions. *)
Record AlgorithmicPolicy := {
  direction_policy : subpolicy nat;
  output_policy : subpolicy Z;
  state_policy : subpolicy nat
}.

(** [AlgorithmicPolicy.get_action] on such a policy. *)
Definition get_action (pol : AlgorithmicPolicy) (obs state : nat) : option action :=
  direction ← direction_policy pol obs state;
  output ← output_policy pol obs state;
  Some (if decide (output = BruteForce.NO_OUTPUT) then (direction, 0, 0%Z)
        else (direction, 1, output)).

(** The numbers [enumerate_policies_with_nstates] passes to [logging.info]
    before its first policy: the state count, [ndpols], [nopols], [nspols]
    and, for the total, the fifth argument of [format], [n**expo]. *)
Record policy_counts := {
  pc_states : nat;
  pc_direction : nat;
  pc_output : nat;
  pc_state : nat;
  pc_total : nat
}.

Definition logged_counts (self : PolicyEnumerator) (n : nat) : policy_counts :=
  let expo := n * n_inputs self in
  let ndpols := length (dirs self) ^ expo in
  let nopols := n_outputs self ^ expo in
  let nspols := n ^ expo in
  {| pc_states := n; pc_direction := ndpols; pc_output := nopols; pc_state := nspols;
     pc_total := n ^ expo |}.

(** The policies [enumerate_policies_with_nstates] yields, in order. *)
Definition enumerate_policies_with_nstates (self : PolicyEnumerator) (n : nat)
    : list AlgorithmicPolicy :=
  dp ← enumerate_direction_policies self n;
  op ← enumerate_output_policies self n;
  sp ← enumerate_state_policies self n;
  [{| direction_policy := dp; output_policy := op; state_policy := sp |}].

(** [PolicyEnumerator.enum(max_states)]. *)
Definition enum (self : PolicyEnumerator) (max_states : nat) : list AlgorithmicPolicy :=
  n ← seq 1 max_states; enumerate_policies_with_nstates self n.

End Enumerator.

(** * [brute_force.py]: the search over the enumerated policies *)

Module Search.

(** Outcome of running an enumerated policy from a state: a normal return,
    the [IndexError] of a policy function called outside its image, which
    nothing catches, or a loop still running when the fuel ends. *)
Inductive outcome (S A : Type) :=
  | Done (a : A) (s : S)
  | IndexError (s : S)
  | Unfinished.
Arguments Done {S A} a s.
Arguments IndexError {S A} s.
Arguments Unfinished {S A}.

Section Run.
Context {E : Type}.
Variable env : AlgorithmicEnv E.
Variable pol : Enumerator.AlgorithmicPolicy.

(** [AlgorithmicPolicy.run_episode], the loop [while not done]. *)
Fixpoint episode_loop (fuel : nat) (obs state : nat) (total_reward : Q) (e : E)
    : outcome E (bool * Q) :=
  match fuel with
  | 0 => Unfinished
  | S fuel' =>
      match Enumerator.get_action pol obs state with
      | None => IndexError e
      | Some action =>
          match Enumerator.state_policy pol obs state with
          | None => IndexError e
          | Some state' =>
              let '((obs', reward, done), e') := step env e action in
              let total_reward' := (total_reward + reward)%Q in
              if done then Done (negb (Qle_bool reward 0), total_reward') e'
              else episode_loop fuel' obs' state' total_reward' e'
          end
      end
  end.

Definition run_episode (fuel : nat) (e : E) : outcome E (bool * Q) :=
  let (obs, e') := reset env e in episode_loop fuel obs 0 0%Q e'.

(** [AlgorithmicPolicy.run]: the loop [while reward_countdown] and the final
    [return reward_countdown == 0]. *)
Fixpoint run_loop (efuel fuel : nat) (reward_countdown : nat) (e : E) : outcome E bool :=
  if decide (reward_countdown = 0) then Done true e
  else
    match fuel with
    | 0 => Unfinished
    | S fuel' =>
        match run_episode efuel e with
        | Done (success, reward) e1 =>
            if negb success then Done false e1
            else
              let seen_reward_thresh := Qle_bool (reward_threshold (spec env)) reward in
              if seen_reward_thresh then run_loop efuel fuel' (reward_countdown - 1) e1
              else run_loop efuel fuel' reward_countdown e1
        | IndexError e1 => IndexError e1
        | Unfinished => Unfinished
        end
    end.

Definition run (efuel fuel : nat) (e : E) : outcome E bool :=
  run_loop efuel fuel (trials (spec env)) e.
End Run.

(** The loop of [solve_env] over the policies still to try, [i] being the
    index [enumerate] gives the next one.  The state is that of the
    environment with the indices passed to [logging.debug]. *)
Fixpoint solve_env_loop {E : Type} (env : AlgorithmicEnv E) (efuel fuel : nat)
    (pols : list Enumerator.AlgorithmicPolicy) (i : N) (s : E * list N)
    : outcome (E * list N) bool :=
  match pols with
  | [] => Done false s
  | pol :: rest =>
      match run env pol efuel fuel s.1 with
      | Done success e' =>
          if success then Done true (e', s.2)
          else solve_env_loop env efuel fuel rest (i + 1)%N
                 (e', if decide ((i mod 100000)%N = 0%N) then s.2 ++ [i] else s.2)
      | IndexError e' => IndexError (e', s.2)
      | Unfinished => Unfinished
      end
  end.

(** A policy whose functions are total, as an enumerated policy. *)
Definition of_total (pol : BruteForce.AlgorithmicPolicy) : Enumerator.AlgorithmicPolicy :=
  {| Enumerator.direction_policy :=
       fun obs state => Some (BruteForce.direction_policy pol obs state);
     Enumerator.output_policy :=
       fun obs state => Some (BruteForce.output_policy pol obs state);
     Enumerator.state_policy :=
       fun obs state => Some (BruteForce.state_policy pol obs state) |}.

(** [solve_env(env, max_states)]. *)
Definition solve_env {E : Type} (env : AlgorithmicEnv E) (efuel fuel : nat) (max_states : nat)
    (e : E) : outcome (E * list N) bool :=
  solve_env_loop env efuel fuel
    (Enumerator.enum (Enumerator.PolicyEnumerator_init env) max_states) 0%N (e, []).

End Search.

(** * Specification *)

(** Definitions the statements below are written with: what the program
    decodes and records, stated without its bookkeeping, and the concrete
    backend, environments and worlds the statements are instantiated at. *)

(** ** Decoding a rule-table entry *)

(** Index and formula of the first member of a one-hot list that holds. *)
Fixpoint first_true (a : assignment) (thing : list formula) (i : nat) : option (nat * formula) :=
  match thing with
  | [] => None
  | formula :: rest => if eval a formula then Some (i, formula) else first_true a rest (S i)
  end.

(** The value [ret] and the literal [form] that [_lookup] computes for an
    entry of a rule table under the model [a]. *)
Definition decode (a : assignment) (thing : rule_val) : option (nat * formula) :=
  match thing with
  | VList l => first_true a l 0
  | VSym f => Some (if eval a f then 1 else 0, if eval a f then f else FNot f)
  | VNone => None
  end.

(** [decode] at the entry [rules[(state, obs)]], when the key exists. *)
Definition decode_at (a : assignment) (rules : rule_table) (obs state : nat)
    : option (nat * formula) :=
  rules !! (state, obs) ≫= decode a.

(** The decisions of one step under the model [a]: the action and next
    state returned, and the literals recorded for the direction, write and
    next-state rules ([None] for the constant next state of a one-state
    controller). *)
Record step_decisions := {
  sd_action : action;
  sd_next : nat;
  sd_dir : formula;
  sd_write : formula;
  sd_state : option formula
}.

(** The tuple [get_action] returns for a decoded direction and write
    value. *)
Definition write_action (n_chars dirno writeno : nat) : action :=
  (dirno, if decide (writeno = n_chars) then 0 else 1,
   Z.min (Z.of_nat writeno) (Z.of_nat n_chars - 1)).

(** What [get_action] and [get_state] decide at [(obs, state)]. *)
Definition decide_step (a : assignment) (h : BoolSatHelper) (obs state : nat)
    : option step_decisions :=
  d ← decode_at a (direction_rules h) obs state;
  w ← decode_at a (write_rules h) obs state;
  s ← (if decide (n_states h = 1) then Some (0, None)
       else (fun p => (p.1, Some p.2)) <$> decode_at a (state_rules h) obs state);
  Some {| sd_action := write_action (n_chars h) d.1 w.1; sd_next := s.1;
          sd_dir := d.2; sd_write := w.2; sd_state := s.2 |}.

(** The literals a step leaves in the buffer. *)
Definition pending (d : step_decisions) : gset formula :=
  {[sd_dir d]} ∪ match sd_state d with Some f => {[f]} | None => ∅ end.

(** The literals committed by the write rule over a run of steps. *)
Definition writes (ds : list step_decisions) : gset formula :=
  list_to_set (sd_write <$> ds).

(** The direction and next-state literals of a run of steps. *)
Definition pendings (ds : list step_decisions) : gset formula :=
  ⋃ (pending <$> ds).

(** The steps of one episode as the fixed candidate [a] decides them,
    without any bookkeeping: the decisions of each step, the result
    [(success, total_reward)] and the final state of the environment. *)
Fixpoint episode_trace {E : Type} (env : AlgorithmicEnv E) (fuel : nat) (a : assignment)
    (h : BoolSatHelper) (e : E) (obs state : nat) (total_reward : Q)
    : option (list step_decisions * (bool * Q) * E) :=
  match fuel with
  | 0 => None
  | S fuel' =>
      d ← decide_step a h obs state;
      let '((obs', reward, done), e') := step env e (sd_action d) in
      let total_reward' := (total_reward + reward)%Q in
      if done then Some ([d], (negb (Qle_bool reward 0), total_reward'), e')
      else
        tr ← episode_trace env fuel' a h e' obs' (sd_next d) total_reward';
        Some (d :: tr.1.1, tr.1.2, tr.2)
  end.

(** ** The tables and constraints of a constructed helper *)

(** The dictionary [_rule_vars] returns. *)
Definition rule_table_of (states chars_plus : list nat) (name : rule_name)
    (to_domain : list nat) : rule_table :=
  foldl (fun rules input_tup => <[input_tup := rule_value name to_domain input_tup]> rules)
        ∅ (product states chars_plus).

(** The size of the domain of each rule: directions, characters plus
    "don't write", states. *)
Definition domain_size (dirs_n : nat) (h : BoolSatHelper) (name : rule_name) : nat :=
  match name with
  | dir_rule => dirs_n
  | write_rule => n_chars h + 1
  | state_rule => n_states h
  end.

(** The dictionary of a rule. *)
Definition table (h : BoolSatHelper) (name : rule_name) : rule_table :=
  match name with
  | dir_rule => direction_rules h
  | write_rule => write_rules h
  | state_rule => state_rules h
  end.

(** The member symbols of the one-hot group of a rule at [(s, c)]. *)
Definition members (name : rule_name) (s c d : nat) : list formula :=
  (fun o => rule_symbol name (s, c) (Some o)) <$> seq 0 d.

(** The tables of a helper are those [__init__] builds for [dirs_n]
    directions. *)
Definition built (dirs_n : nat) (h : BoolSatHelper) : Prop :=
  forall name,
    table h name = rule_table_of (seq 0 (n_states h)) (seq 0 (n_chars h + 1)) name
                                 (seq 0 (domain_size dirs_n h name)).

(** The [ExactlyOne] assertions made for one (domain, rules) pair. *)
Definition pair_constraints (p : list nat * rule_table) : list formula :=
  if decide (length p.1 < 2) then []
  else if decide (length p.1 = 2) then []
  else omap (fun v => match v with VList l => Some (FExactlyOne l) | _ => None end)
            (snd <$> map_to_list p.2).

(** A decision of the controller: a rule looked up at an observation and a
    state. *)
Definition decision : Type := rule_name * nat * nat.


(** The [ExactlyOne] constraint of the group of a decision holds under [a],
    when the group is one-hot. *)
Definition group_constrained (dirs_n : nat) (h : BoolSatHelper) (a : assignment)
    (dec : decision) : Prop :=
  let d := domain_size dirs_n h dec.1.1 in
  2 < d -> eval a (FExactlyOne (members dec.1.1 dec.2 dec.1.2 d)) = true.

(** A helper the policy runner can use: its tables are those built for
    [dirs_n] directions, directions and characters have at least two values
    each, there is at least one state, and its model satisfies the
    [ExactlyOne] constraint of every one-hot group. *)
Definition usable (dirs_n : nat) (a : assignment) (h : BoolSatHelper) : Prop :=
  built dirs_n h /\ model (solver h) = Some a /\
  2 <= dirs_n /\ 1 <= n_chars h /\ 1 <= n_states h /\
  forall name s c, s < n_states h -> c < n_chars h + 1 ->
                   group_constrained dirs_n h a (name, c, s).

(** Every observation of the environment is a character or the blank:
    at most [nc]. *)
Definition observes_in_range {E : Type} (env : AlgorithmicEnv E) (nc : nat) : Prop :=
  (forall e, (reset env e).1 <= nc) /\ forall e act, (step env e act).1.1.1 <= nc.

(** The base constraints of a helper are among its assertions. *)
Definition based (dirs_n : nat) (h : BoolSatHelper) : Prop :=
  forall name s c, s < n_states h -> c < n_chars h + 1 -> 2 < domain_size dirs_n h name ->
    FExactlyOne (members name s c (domain_size dirs_n h name)) ∈ assertions (solver h).

(** ** Symbols, assignments and backends *)

(** The symbols of a formula. *)
Fixpoint formula_symbols (f : formula) : list symbol :=
  match f with
  | FSym v => [v]
  | FNot g => formula_symbols g
  | FAnd fs => concat (map formula_symbols fs)
  | FExactlyOne fs => concat (map formula_symbols fs)
  end.

(** The symbols of a table entry. *)
Definition val_symbols (v : rule_val) : list symbol :=
  match v with
  | VNone => []
  | VSym f => formula_symbols f
  | VList l => concat (map formula_symbols l)
  end.

(** The symbols of the three tables. *)
Definition table_symbols (h : BoolSatHelper) : list symbol :=
  name ← [dir_rule; write_rule; state_rule];
  kv ← map_to_list (table h name);
  val_symbols kv.2.

(** A formula mentions only symbols of [V]. *)
Definition closed_in (V : list symbol) (f : formula) : bool :=
  forallb (fun v => bool_decide (v ∈ V)) (formula_symbols f).

(** All subsets of a list of symbols. *)
Fixpoint sublists (vs : list symbol) : list (list symbol) :=
  match vs with
  | [] => [[]]
  | v :: r => sublists r ++ (cons v <$> sublists r)
  end.

(** The assignment that makes exactly the symbols of [trues] true. *)
Definition assignment_of (trues : list symbol) : assignment :=
  fun v => bool_decide (v ∈ trues).

(** The assignment satisfies every formula of a list. *)
Definition satisfies (a : assignment) (fs : list formula) : bool :=
  forallb (eval a) fs.

(** A backend that answers [solve()] by trying every assignment over [V]. *)
Definition enum_backend (V : list symbol) (fs : list formula) : option assignment :=
  assignment_of <$> List.find (fun t => satisfies (assignment_of t) fs) (sublists V).



(** A model returned by the backend satisfies the asserted formulas. *)
Definition sound (backend : list formula -> option assignment) : Prop :=
  forall fs a, backend fs = Some a -> satisfies a fs = true.


(** A literal holds under [a] and mentions only symbols of the tables. *)
Definition good_literal (a : assignment) (h : BoolSatHelper) (l : formula) : Prop :=
  eval a l = true /\ closed_in (table_symbols h) l = true.

(** ** States of the refinement loop *)

(** The state [resolve] reaches before calling the backend: the nogood is
    asserted when the provenance set is non-empty, and both sets are
    cleared. *)
Definition resolved (h : BoolSatHelper) : BoolSatHelper :=
  set_dirty ∅ ∅
    (if decide (dirty_variables h = ∅) then h
     else set_solver_of (add_assertion (nogood_of (dirty_variables h)) (solver h)) h).

(** The helper with the model of its solver replaced. *)
Definition with_model (m : option assignment) (h : BoolSatHelper) : BoolSatHelper :=
  set_solver_of {| assertions := assertions (solver h); model := m |} h.

(** Both the provenance set and the buffer are empty. *)
Definition clean {E : Type} (w : World E) : Prop :=
  dirty_variables (helper w) = ∅ /\ dirty_buffer (helper w) = ∅.

(** The world after [clear_dirty]. *)
Definition cleared {E : Type} (w : World E) : World E :=
  {| helper := set_dirty ∅ ∅ (helper w); env_st := env_st w; log := log w |}.

(** The episodes run by the loop of [try_model] from a world: the rewards
    of the episodes that were successful but below the threshold, each
    followed by [clear_dirty], then the result of the last episode and the
    world it leaves. *)
Inductive evaluation {E : Type} (env : AlgorithmicEnv E) (fuel : nat)
    : World E -> list Q -> bool * Q -> World E -> Prop :=
  | evaluation_last w sr w' :
      run_episode env fuel w = Ok sr w' ->
      evaluation env fuel w [] sr w'
  | evaluation_discard w r w1 rs sr w' :
      run_episode env fuel w = Ok (true, r) w1 ->
      qualifies env r = false ->
      evaluation env fuel (cleared w1) rs sr w' ->
      evaluation env fuel w (r :: rs) sr w'.

(** The world after one more message is logged. *)
Definition logged {E : Type} (ev : log_event) (w : World E) : World E :=
  {| helper := helper w; env_st := env_st w; log := log w ++ [ev] |}.

(** The world after the assertion and clearing of [resolve], with the
    backend's answer as the model. *)
Definition after_resolve {E : Type} (m : option assignment) (w : World E) : World E :=
  {| helper := with_model m (resolved (helper w)); env_st := env_st w; log := log w |}.

(** The progress message of [solve], every 500 iterations. *)
Definition progress {E : Type} (i : nat) (w : World E) : World E :=
  if decide (i mod 500 = 0) then logged (InfoProgress i) w else w.

(** Two helpers have the same sizes and rule tables. *)
Definition same_static (h0 h : BoolSatHelper) : Prop :=
  n_chars h = n_chars h0 /\ n_states h = n_states h0 /\
  forall name, table h name = table h0 name.





(** ** Small environments and their worlds *)

(** An environment with two directions and one character whose state counts
    the steps of the current episode; [f] gives the outcome
    [(obs, reward, done)] of a step. *)
Definition toy_env (threshold : Q) (n_trials : nat)
    (f : nat -> action -> nat * Q * bool) : AlgorithmicEnv nat :=
  {| spec := {| reward_threshold := threshold; trials := n_trials |};
     action_space := (2, 2, 1);
     reset := fun _ => (0, 0);
     step := fun e act => (f e act, S e) |}.

(** Every episode ends at its first step, in failure. *)
Definition failing_env : AlgorithmicEnv nat :=
  toy_env 1 1 (fun _ _ => (0, (-1)%Q, true)).

(** Every episode ends at its first step with reward 1, below the
    threshold 2. *)
Definition modest_env : AlgorithmicEnv nat :=
  toy_env 2 1 (fun _ _ => (0, 1%Q, true)).

(** Every episode ends at its first step with reward 1, the threshold; the
    task asks for two trials. *)
Definition generous_env : AlgorithmicEnv nat :=
  toy_env 1 2 (fun _ _ => (0, 1%Q, true)).

(** An episode is won by writing at the first step and lost otherwise. *)
Definition writing_env : AlgorithmicEnv nat :=
  toy_env 1 1 (fun _ act => (0, if decide (act.1.2 = 1) then 1%Q else (-1)%Q, true)).

(** Two rewarded steps, then a failing third; observations alternate. *)
Definition three_step_env : AlgorithmicEnv nat :=
  toy_env 5 1 (fun e _ => if decide (e < 2) then (S e mod 2, 1%Q, false)
                          else (0, (-1)%Q, true)).

(** Three directions and two characters: the direction and write rules are
    one-hot. *)
Definition wide_env : AlgorithmicEnv nat :=
  {| spec := {| reward_threshold := 1; trials := 1 |};
     action_space := (3, 2, 2);
     reset := fun _ => (0, 0);
     step := fun e act => ((0, if decide (act.1.2 = 1) then 1%Q else (-1)%Q, true), S e) |}.

(** The world after [AlgorithmicSolver.__init__], or an arbitrary one when
    construction raises. *)
Definition world_of {E : Type} (r : result (World E) unit) (e0 : E) : World E :=
  match r with
  | Ok _ w => w
  | _ => {| helper := {| solver := {| assertions := []; model := None |};
                         n_chars := 0; n_states := 0;
                         direction_rules := ∅; write_rules := ∅; state_rules := ∅;
                         dirty_variables := ∅; dirty_buffer := ∅ |};
            env_st := e0; log := [] |}
  end.

(** The world after constructing the solver for [env] with [n] states. *)
Definition fresh_world (env : AlgorithmicEnv nat) (n : nat) : World nat :=
  world_of (AlgorithmicSolver_init env n 0) 0.

(** The reference backend over the symbols of the tables built for [env]. *)
Definition backend_for (env : AlgorithmicEnv nat) (n : nat) : list formula -> option assignment :=
  enum_backend (table_symbols (helper (fresh_world env n))).

(** The world after construction and a first call of [resolve] on the
    reference backend. *)
Definition first_candidate (env : AlgorithmicEnv nat) (n : nat) : World nat :=
  match on_helper (resolve (backend_for env n)) (fresh_world env n) with
  | Ok _ w => w
  | _ => fresh_world env n
  end.

(** Assignment built by hand for [wide_env] with one state: every direction
    rule is 1 and every write rule is 2, "don't write". *)
Definition wide_model : assignment :=
  assignment_of (c ← [0; 1; 2];
                 [Symbol dir_rule 0 c (Some 1); Symbol write_rule 0 c (Some 2)]).

(** The helper constructed for [wide_env], with [wide_model] as its model. *)
Definition wide_helper : BoolSatHelper :=
  with_model (Some wide_model) (helper (fresh_world wide_env 1)).

(** The first candidate for [three_step_env] with two states. *)
Definition three_step_world : World nat := first_candidate three_step_env 2.

(** The first candidate for [modest_env], whose every episode succeeds
    below the threshold. *)
Definition modest_world : World nat := first_candidate modest_env 1.

(** The first candidate for [generous_env], which asks for two trials. *)
Definition generous_world : World nat := first_candidate generous_env 1.

(** The world of [failing_env] after two iterations of [solve]: both
    candidates for the write rule at the only observation have failed. *)
Definition exhausted_world : World nat :=
  match solve (backend_for failing_env 1) failing_env 5 2 (Some 2) (fresh_world failing_env 1) with
  | Ok _ w => w
  | _ => fresh_world failing_env 1
  end.

(** The world of [three_step_env] after the failing episode of its first
    candidate. *)
Definition failed_world : World nat :=
  match run_episode three_step_env 5 three_step_world with
  | Ok _ w => w
  | _ => three_step_world
  end.


(** The world of [wide_env] whose helper carries [wide_model]. *)
Definition wide_world : World nat :=
  {| helper := wide_helper; env_st := 0; log := [] |}.

(** A policy that always moves in direction 0 and writes character 0. *)
Definition writing_policy : BruteForce.AlgorithmicPolicy :=
  {| BruteForce.direction_policy := fun _ _ => 0;
     BruteForce.output_policy := fun _ _ => 0%Z;
     BruteForce.state_policy := fun _ _ => 0 |}.

(** One direction and one character. *)
Definition one_way_env : AlgorithmicEnv nat :=
  {| spec := {| reward_threshold := 1; trials := 1 |};
     action_space := (1, 2, 1);
     reset := fun _ => (0, 0);
     step := fun e act => ((0, 1%Q, true), S e) |}.

(** * Verification *)

(** ** Reasoning about the monad *)

Lemma bind_Ok {S A B} (m : M S A) (k : A -> M S B) s b s' :
  bind m k s = Ok b s' <-> exists a s1, m s = Ok a s1 /\ k a s1 = Ok b s'.
Proof.
  unfold bind. destruct (m s) as [a s1|e s1|]; split.
  - eauto.
  - by intros (? & ? & [= -> ->] & ?).
  - done.
  - by intros (? & ? & ? & ?).
  - done.
  - by intros (? & ? & ? & ?).
Qed.

Lemma zoom_Ok {S T A} (proj : T -> S) (upd : S -> T -> T) (m : M S A) t a t' :
  zoom proj upd m t = Ok a t' <-> exists s', m (proj t) = Ok a s' /\ t' = upd s' t.
Proof.
  unfold zoom. destruct (m (proj t)) as [a0 s1|e s1|]; split.
  - intros [= -> <-]. eauto.
  - by intros (? & [= -> ->] & ->).
  - done.
  - by intros (? & ? & ?).
  - done.
  - by intros (? & ? & ?).
Qed.

(** ** What a lookup decodes *)

Lemma first_true_spec a l i r f :
  first_true a l i = Some (r, f) <->
  exists j, r = i + j /\ l !! j = Some f /\ eval a f = true /\
            forall j' g, j' < j -> l !! j' = Some g -> eval a g = false.
Proof.
  revert i. induction l as [|x l IH]; intros i; simpl.
  - split; [done|]. by intros (j & _ & ? & _).
  - destruct (eval a x) eqn:Hx.
    + split.
      * intros [= <- <-]. exists 0. repeat split; [lia|done|]. intros; lia.
      * intros (j & -> & Hj & Hf & Hlt). destruct j as [|j].
        -- simpl in Hj. injection Hj as <-. do 2 f_equal. lia.
        -- specialize (Hlt 0 x ltac:(lia) eq_refl). congruence.
    + rewrite IH. split.
      * intros (j & -> & Hj & Hf & Hlt). exists (S j). repeat split; [lia|done|done|].
        intros [|j'] g Hj' Hg; simpl in Hg; [congruence|]. apply (Hlt j' g); [lia|done].
      * intros (j & -> & Hj & Hf & Hlt). destruct j as [|j].
        -- simpl in Hj. congruence.
        -- exists j. repeat split; [lia|done|done|].
           intros j' g Hj' Hg. apply (Hlt (S j') g); [lia|done].
Qed.

Lemma decode_true a thing r f : decode a thing = Some (r, f) -> eval a f = true.
Proof.
  destruct thing as [|g|l]; simpl; [done| |].
  - destruct (eval a g) eqn:Hg; intros [= <- <-]; simpl; by rewrite ?Hg.
  - intros (j & _ & _ & ? & _)%first_true_spec. done.
Qed.

Section LookupSpec.
Variables (a : assignment) (h : BoolSatHelper).
Hypothesis Hmodel : model (solver h) = Some a.

Lemma get_py_value_eq f : get_py_value f h = Ok (eval a f) h.
Proof using Hmodel. unfold get_py_value. by rewrite Hmodel. Qed.

Lemma lookup_list_eq l i :
  lookup_list l i h =
    match first_true a l i with
    | Some rf => Ok rf h
    | None => Raise AssertionError h
    end.
Proof using Hmodel.
  revert i. induction l as [|x l IH]; intros i; simpl; [done|].
  unfold bind. rewrite get_py_value_eq. destruct (eval a x); [done|]. apply IH.
Qed.

(** [_lookup] returns normally exactly when the entry exists and decodes;
    it then records the decoded literal and nothing else. *)
Lemma lookup_Ok rules obs state buff r h' :
  _lookup rules obs state buff h = Ok r h' <->
  exists f, decode_at a (rules h) obs state = Some (r, f) /\ h' = add_dirty buff f h.
Proof using Hmodel.
  unfold _lookup, decode_at, bind, get.
  destruct (rules h !! (state, obs)) as [thing|]; simpl; [|split; [done|by intros (? & ? & ?)]].
  destruct thing as [|f|l]; simpl.
  - split; [done|by intros (? & ? & ?)].
  - rewrite get_py_value_eq. unfold ret, modify. simpl. split.
    + intros [= <- <-]. eauto.
    + by intros (? & [= <- <-] & ->).
  - rewrite lookup_list_eq. destruct (first_true a l 0) as [[r0 f0]|]; simpl.
    + unfold modify, ret. simpl. split.
      * intros [= <- <-]. eauto.
      * by intros (? & [= <- <-] & ->).
    + split; [done|by intros (? & ? & ?)].
Qed.
End LookupSpec.

Lemma get_action_Ok a h obs state act h' :
  model (solver h) = Some a ->
  get_action obs state h = Ok act h' <->
  exists dirno df writeno wf,
    decode_at a (direction_rules h) obs state = Some (dirno, df) /\
    decode_at a (write_rules h) obs state = Some (writeno, wf) /\
    act = write_action (n_chars h) dirno writeno /\
    h' = set_dirty (dirty_variables h ∪ dirty_buffer h ∪ {[wf]}) {[df]} h.
Proof.
  intros Hmodel. unfold get_action.
  set (h1 := set_dirty (dirty_variables h ∪ dirty_buffer h) ∅ h).
  assert (Hflush : forall (k : unit -> M BoolSatHelper action),
    bind (if decide (dirty_buffer h = ∅) then ret tt
          else modify (fun h => set_dirty (dirty_variables h ∪ dirty_buffer h) ∅ h)) k h
    = k tt h1).
  { intros k. unfold bind, h1. destruct (decide (dirty_buffer h = ∅)) as [Hb|Hb]; simpl; [|done].
    f_equal. destruct h; simpl in *. unfold set_dirty; simpl. subst. f_equal. set_solver. }
  rewrite bind_Ok. unfold get at 1. split.
  - intros (? & ? & [= <- <-] & H). rewrite Hflush in H.
    apply bind_Ok in H as (dirno & h2 & Hd & H).
    apply (lookup_Ok a h1) in Hd as (df & Hd & ->); [|done].
    apply bind_Ok in H as (writeno & h3 & Hw & H).
    apply (lookup_Ok a) in Hw as (wf & Hw & ->); [|done].
    unfold ret in H. revert H. intros [= <- <-].
    exists dirno, df, writeno, wf. repeat split; try done.
    unfold add_dirty, set_dirty, h1; simpl. f_equal. set_solver.
  - intros (dirno & df & writeno & wf & Hd & Hw & -> & ->).
    exists h, h. split; [done|]. rewrite Hflush.
    apply bind_Ok. exists dirno, (add_dirty true df h1). split.
    { apply (lookup_Ok a); [done|]. eauto. }
    apply bind_Ok. exists writeno, (add_dirty false wf (add_dirty true df h1)). split.
    { apply (lookup_Ok a); [done|]. eauto. }
    unfold ret. f_equal.
    unfold add_dirty, set_dirty, h1; simpl. f_equal. set_solver.
Qed.

Lemma get_state_Ok a h obs state st h' :
  model (solver h) = Some a ->
  get_state obs state h = Ok st h' <->
  (n_states h = 1 /\ st = 0 /\ h' = h) \/
  (n_states h <> 1 /\ exists f, decode_at a (state_rules h) obs state = Some (st, f) /\
     h' = set_dirty (dirty_variables h) (dirty_buffer h ∪ {[f]}) h).
Proof.
  intros Hmodel. unfold get_state. rewrite bind_Ok. unfold get at 1. split.
  - intros (? & ? & [= <- <-] & H). destruct (decide (n_states h = 1)) as [Hn|Hn].
    + left. unfold ret in H. revert H. by intros [= <- <-].
    + right. split; [done|]. by apply (lookup_Ok a) in H.
  - intros [(Hn & -> & ->)|(Hn & f & Hf & ->)]; exists h, h; (split; [done|]).
    + by rewrite decide_True.
    + rewrite decide_False by done. apply (lookup_Ok a); [done|]. eauto.
Qed.

(** [get_action] followed by [get_state]: the decisions are those of
    [decide_step]; the buffer is flushed into the provenance set, the write
    literal is committed, and the buffer then holds this step's pair. *)
Lemma get_action_state_Ok a h obs state act st h1 h2 :
  model (solver h) = Some a ->
  get_action obs state h = Ok act h1 ->
  get_state obs state h1 = Ok st h2 ->
  exists d, decide_step a h obs state = Some d /\
    act = sd_action d /\ st = sd_next d /\
    h2 = set_dirty (dirty_variables h ∪ dirty_buffer h ∪ {[sd_write d]}) (pending d) h.
Proof.
  intros Hmodel (dirno & df & writeno & wf & Hd & Hw & -> & ->)%(get_action_Ok a); [|done].
  rewrite (get_state_Ok a) by done. simpl. unfold decide_step. rewrite Hd, Hw. simpl.
  intros [(Hn & -> & ->)|(Hn & f & Hf & ->)].
  - rewrite decide_True by done. simpl. eexists. split; [done|]. simpl.
    repeat split. unfold pending, set_dirty; simpl. f_equal. set_solver.
  - rewrite decide_False by done. rewrite Hf. simpl. eexists. split; [done|]. simpl.
    repeat split.
Qed.

(** ** Episodes under a fixed candidate *)

Lemma decide_step_set_dirty a dv db h obs state :
  decide_step a (set_dirty dv db h) obs state = decide_step a h obs state.
Proof. done. Qed.

Section Episodes.
Context {E : Type}.
Variable env : AlgorithmicEnv E.

Lemma on_helper_Ok {A} (m : M BoolSatHelper A) (w : World E) r w' :
  on_helper m w = Ok r w' <->
  exists h', m (helper w) = Ok r h' /\
             w' = {| helper := h'; env_st := env_st w; log := log w |}.
Proof. apply zoom_Ok. Qed.

Lemma on_log_Ok {A} (m : M (list log_event) A) (w : World E) r w' :
  on_log m w = Ok r w' <->
  exists l', m (log w) = Ok r l' /\
             w' = {| helper := helper w; env_st := env_st w; log := l' |}.
Proof. apply zoom_Ok. Qed.

Lemma on_env_Ok {A} (f : E -> A * E) (w : World E) r w' :
  on_env f w = Ok r w' <->
  r = (f (env_st w)).1 /\
  w' = {| helper := helper w; env_st := (f (env_st w)).2; log := log w |}.
Proof.
  unfold on_env. destruct (f (env_st w)) as [r0 e]; simpl. split.
  - by intros [= <- <-].
  - by intros [-> ->].
Qed.

Lemma episode_trace_set_dirty fuel a dv db h e obs state total :
  episode_trace env fuel a (set_dirty dv db h) e obs state total
  = episode_trace env fuel a h e obs state total.
Proof.
  revert e obs state total. induction fuel as [|fuel IH]; intros; simpl; [done|].
  rewrite decide_step_set_dirty. destruct (decide_step a h obs state) as [d|]; simpl; [|done].
  destruct (step env e (sd_action d)) as [[[obs' reward] done] e']. by rewrite IH.
Qed.

Lemma episode_step_Ok a obs state (w : World E) r w' :
  model (solver (helper w)) = Some a ->
  episode_step env obs state w = Ok r w' ->
  exists d, decide_step a (helper w) obs state = Some d /\
    r = (sd_next d, (step env (env_st w) (sd_action d)).1) /\
    w' = {| helper := set_dirty (dirty_variables (helper w) ∪ dirty_buffer (helper w)
                                   ∪ {[sd_write d]}) (pending d) (helper w);
            env_st := (step env (env_st w) (sd_action d)).2;
            log := log w |}.
Proof.
  intros Hmodel H. unfold episode_step in H.
  apply bind_Ok in H as (act & w1 & Ha & H).
  apply on_helper_Ok in Ha as (h1 & Ha & ->).
  apply bind_Ok in H as (st & w2 & Hs & H).
  apply on_helper_Ok in Hs as (h2 & Hs & ->). simpl in Hs.
  apply bind_Ok in H as (sr & w3 & He & H).
  apply on_env_Ok in He as (-> & ->). simpl in H.
  unfold ret in H. revert H. intros [= <- <-].
  destruct (get_action_state_Ok a _ _ _ _ _ _ _ Hmodel Ha Hs) as (d & Hd & -> & -> & ->).
  exists d. done.
Qed.

(** An episode that returns has followed [episode_trace]; every write
    literal is in the provenance set, with the direction and next-state
    literals of all steps but the last, whose pair is still buffered. *)
Lemma episode_loop_Ok a fuel obs state total (w : World E) r w' :
  model (solver (helper w)) = Some a ->
  episode_loop env fuel obs state total w = Ok r w' ->
  exists ds d,
    episode_trace env fuel a (helper w) (env_st w) obs state total
      = Some (ds ++ [d], r, env_st w') /\
    helper w' = set_dirty (dirty_variables (helper w) ∪ dirty_buffer (helper w)
                             ∪ writes (ds ++ [d]) ∪ pendings ds)
                          (pending d) (helper w) /\
    log w' = log w.
Proof.
  revert obs state total w. induction fuel as [|fuel IH]; intros obs state total w Hmodel H.
  { done. }
  simpl in H. apply bind_Ok in H as (sr & w1 & Hstep & H).
  destruct (episode_step_Ok a _ _ _ _ _ Hmodel Hstep) as (d & Hd & -> & ->).
  simpl. rewrite Hd. simpl.
  destruct (step env (env_st w) (sd_action d)) as [[[obs' reward] done] e'] eqn:Hst.
  simpl in H. destruct done.
  - unfold ret in H. revert H. intros [= <- <-]. exists [], d. simpl.
    repeat split. unfold writes, pendings. simpl. f_equal. set_solver.
  - apply IH in H as (ds & d' & Htr & Hh & Hl); [|done]. simpl in Htr, Hh, Hl.
    rewrite episode_trace_set_dirty in Htr. rewrite Htr. simpl.
    exists (d :: ds), d'. repeat split; [|done].
    rewrite Hh. unfold writes, pendings, set_dirty. simpl. f_equal.
    rewrite fmap_app. simpl. set_solver.
Qed.

Lemma run_episode_Ok a fuel (w : World E) r w' :
  model (solver (helper w)) = Some a ->
  run_episode env fuel w = Ok r w' ->
  exists ds d,
    episode_trace env fuel a (helper w) (reset env (env_st w)).2 (reset env (env_st w)).1 0 0%Q
      = Some (ds ++ [d], r, env_st w') /\
    helper w' = set_dirty (dirty_variables (helper w) ∪ dirty_buffer (helper w)
                             ∪ writes (ds ++ [d]) ∪ pendings ds)
                          (pending d) (helper w) /\
    log w' = log w.
Proof.
  intros Hmodel H. unfold run_episode in H.
  apply bind_Ok in H as (obs & w1 & Hr & H).
  apply on_env_Ok in Hr as (-> & ->).
  by apply (episode_loop_Ok a) in H.
Qed.
End Episodes.

(** ** Construction of the rule tables and base constraints *)

Lemma foldl_insert_lookup {V} (f : nat * nat -> V) (ks : list (nat * nat))
    (m : gmap (nat * nat) V) (k : nat * nat) :
  foldl (fun m k => <[k := f k]> m) m ks !! k
  = if decide (k ∈ ks) then Some (f k) else m !! k.
Proof.
  revert m. induction ks as [|k0 ks IH]; intros m.
  - done.
  - cbn [foldl]. rewrite IH. destruct (decide (k ∈ ks)) as [Hin|Hin].
    + rewrite decide_True; [done|]. by right.
    + destruct (decide (k = k0)) as [->|Hne].
      * rewrite decide_True by left. by rewrite lookup_insert_eq.
      * rewrite decide_False; [by rewrite lookup_insert_ne|].
        by intros [?|?]%elem_of_cons.
Qed.

Lemma elem_of_product (xs ys : list nat) (s c : nat) :
  (s, c) ∈ product xs ys <-> s ∈ xs /\ c ∈ ys.
Proof.
  unfold product. rewrite list_elem_of_bind. split.
  - intros (x & Hin & Hx). apply list_elem_of_bind in Hin as (y & Hin & Hy).
    apply list_elem_of_singleton in Hin. by injection Hin as -> ->.
  - intros [Hs Hc]. exists s. split; [|done].
    apply list_elem_of_bind. exists c. split; [|done]. by apply list_elem_of_singleton.
Qed.

Lemma rule_table_lookup n m name dom s c :
  rule_table_of (seq 0 n) (seq 0 m) name dom !! (s, c)
  = if decide (s < n /\ c < m) then Some (rule_value name dom (s, c)) else None.
Proof.
  unfold rule_table_of. rewrite (foldl_insert_lookup (rule_value name dom)).
  destruct (decide (s < n /\ c < m)) as [[Hs Hc]|Hn].
  - rewrite decide_True; [done|]. apply elem_of_product. rewrite !elem_of_seq. lia.
  - rewrite decide_False; [done|]. rewrite elem_of_product, !elem_of_seq. lia.
Qed.

Lemma rule_vars_Ok states chars_plus name dom l T l' :
  _rule_vars states chars_plus name dom l = Ok T l' ->
  1 <= length dom /\ T = rule_table_of states chars_plus name dom.
Proof.
  unfold _rule_vars. destruct (decide (1 <= length dom)); [|done].
  intros H. split; [done|]. apply bind_Ok in H as (? & ? & _ & H).
  unfold ret in H. by injection H as <- _.
Qed.

Lemma assert_just_one_Ok vs h r h' :
  assert_just_one vs h = Ok r h' ->
  exists ls, vs = VList <$> ls /\
    h' = set_solver_of {| assertions := assertions (solver h) ++ (FExactlyOne <$> ls);
                          model := model (solver h) |} h.
Proof.
  revert h. induction vs as [|v vs IH]; intros h H; simpl in H.
  - unfold ret in H. injection H as _ <-. exists []. split; [done|]. simpl.
    rewrite app_nil_r. by destruct h as [[] ? ? ? ? ? ? ?].
  - destruct v as [|f|l]; [done|done|].
    apply bind_Ok in H as (? & h1 & Hm & H). unfold modify in Hm. injection Hm as _ <-.
    apply IH in H as (ls & -> & ->). exists (l :: ls). split; [done|].
    unfold set_solver_of, add_assertion. simpl. by rewrite <- app_assoc.
Qed.

Section Construction.
Context {E : Type}.
Variable env : AlgorithmicEnv E.

Lemma base_constraints_loop_Ok pairs (w : World E) r w' :
  base_constraints_loop pairs w = Ok r w' ->
  helper w' = set_solver_of
                {| assertions := assertions (solver (helper w)) ++ (pairs ≫= pair_constraints);
                   model := model (solver (helper w)) |} (helper w) /\
  env_st w' = env_st w.
Proof.
  revert w. induction pairs as [|[domain rules] pairs IH]; intros w H; simpl in H.
  - unfold ret in H. injection H as _ <-. split; [|done]. simpl. rewrite app_nil_r.
    by destruct (helper w) as [[] ? ? ? ? ? ? ?].
  - apply bind_Ok in H as (? & w1 & H1 & H). apply IH in H as [-> ->].
    assert (helper w1 = set_solver_of
              {| assertions := assertions (solver (helper w)) ++ pair_constraints (domain, rules);
                 model := model (solver (helper w)) |} (helper w) /\ env_st w1 = env_st w)
      as [-> ->].
    { unfold pair_constraints. simpl.
      destruct (decide (length domain < 2)).
      { apply on_log_Ok in H1 as (? & _ & ->). simpl. rewrite app_nil_r.
        by destruct (helper w) as [[] ? ? ? ? ? ? ?]. }
      destruct (decide (length domain = 2)).
      { unfold ret in H1. injection H1 as _ <-. rewrite app_nil_r.
        by destruct (helper w) as [[] ? ? ? ? ? ? ?]. }
      apply on_helper_Ok in H1 as (h1 & H1 & ->). simpl.
      apply assert_just_one_Ok in H1 as (ls & -> & ->). split; [|done].
      do 2 f_equal. f_equal. clear. induction ls as [|l ls IHl]; [done|].
      cbn. f_equal. exact IHl. }
    split; [|done]. unfold set_solver_of. simpl. by rewrite <- app_assoc.
Qed.

(** What [AlgorithmicSolver.__init__] leaves behind when it returns. *)
Lemma init_Ok n e0 r (w : World E) :
  AlgorithmicSolver_init env n e0 = Ok r w ->
  let dirs_n := (action_space env).1.1 in
  let h := helper w in
  n_chars h = (action_space env).2 /\ n_states h = n /\
  built dirs_n h /\
  (forall name, 1 <= domain_size dirs_n h name) /\
  dirty_variables h = ∅ /\ dirty_buffer h = ∅ /\
  model (solver h) = None /\
  env_st w = e0 /\
  assertions (solver h)
    = [dir_rule; write_rule; state_rule] ≫=
        (fun name => pair_constraints (seq 0 (domain_size dirs_n h name), table h name)).
Proof.
  unfold AlgorithmicSolver_init, BoolSatHelper_init.
  destruct (action_space env) as [[dirs_n wm] nc]. simpl.
  match goal with
  | |- context [match ?b [] with _ => _ end] => destruct (b []) as [h0 l0| |] eqn:Hb
  end;
    [|done|done].
  apply bind_Ok in Hb as (? & l1 & _ & Hb).
  apply bind_Ok in Hb as (Td & l2 & [Hd ->]%rule_vars_Ok & Hb).
  apply bind_Ok in Hb as (Tw & l3 & [Hw ->]%rule_vars_Ok & Hb).
  apply bind_Ok in Hb as (Ts & l4 & [Hs ->]%rule_vars_Ok & Hb).
  unfold ret in Hb. injection Hb as <- <-.
  unfold add_base_constraints. intros H.
  apply bind_Ok in H as (h1 & w1 & Hg & H).
  apply on_helper_Ok in Hg as (? & Hg & ->). unfold get in Hg. simpl in Hg.
  injection Hg as <- <-.
  apply base_constraints_loop_Ok in H as [Hh He]. simpl in Hh, He.
  rewrite Hh. simpl. rewrite length_seq in Hd, Hw, Hs.
  repeat split; try done.
  - by intros [].
  - by intros [].
Qed.
End Construction.

(** ** One-hot groups *)

Lemma count_true_zero ev (l : list formula) :
  count_true ev l = 0 <-> forall j g, l !! j = Some g -> ev g = false.
Proof.
  induction l as [|x l IH]; simpl.
  - split; [by intros _ []|done].
  - destruct (ev x) eqn:Hx.
    + split; [done|]. intros H. specialize (H 0 x eq_refl). congruence.
    + rewrite IH. split.
      * intros H [|j] g Hg; simpl in Hg; [congruence|by eapply H].
      * intros H j g Hg. by apply (H (S j)).
Qed.

Lemma count_true_one ev (l : list formula) :
  count_true ev l = 1 <->
  exists i f, l !! i = Some f /\ ev f = true /\
              forall j g, l !! j = Some g -> ev g = true -> j = i.
Proof.
  induction l as [|x l IH]; simpl.
  - split; [done|]. by intros (i & f & ? & _).
  - destruct (ev x) eqn:Hx.
    + split.
      * intros [= H0]. exists 0, x. repeat split; [done|].
        intros [|j] g Hg Hev; [done|]. simpl in Hg.
        rewrite count_true_zero in H0. specialize (H0 j g Hg). congruence.
      * intros (i & f & Hi & Hf & Huniq). f_equal. apply count_true_zero.
        intros j g Hg. destruct (ev g) eqn:Hev; [|done].
        pose proof (Huniq 0 x eq_refl Hx) as <-.
        specialize (Huniq (S j) g Hg Hev). done.
    + rewrite IH. split.
      * intros (i & f & Hi & Hf & Huniq). exists (S i), f. repeat split; [done|done|].
        intros [|j] g Hg Hev; simpl in Hg; [congruence|]. f_equal. by eapply Huniq.
      * intros (i & f & Hi & Hf & Huniq). destruct i as [|i]; simpl in Hi; [congruence|].
        exists i, f. repeat split; [done|done|].
        intros j g Hg Hev. specialize (Huniq (S j) g Hg Hev). lia.
Qed.

(** Under an assignment that satisfies [ExactlyOne] of a list, the lookup
    loop finds the one member that holds. *)
Lemma exactly_one_first_true a (l : list formula) :
  eval a (FExactlyOne l) = true ->
  exists i f, l !! i = Some f /\ eval a f = true /\
    (forall j g, l !! j = Some g -> eval a g = true -> j = i) /\
    first_true a l 0 = Some (i, f).
Proof.
  simpl. intros H%Nat.eqb_eq. apply count_true_one in H as (i & f & Hi & Hf & Huniq).
  exists i, f. repeat split; try done.
  apply first_true_spec. exists i. repeat split; try done.
  intros j g Hj Hg. destruct (eval a g) eqn:Hev; [|done].
  specialize (Huniq j g Hg Hev). lia.
Qed.

Lemma members_lookup name s c d o :
  members name s c d !! o
  = if decide (o < d) then Some (FSym (Symbol name s c (Some o))) else None.
Proof.
  unfold members. rewrite list_lookup_fmap. destruct (decide (o < d)).
  - by rewrite lookup_seq_lt.
  - rewrite lookup_seq_ge; [done|lia].
Qed.

Lemma table_lookup_built dirs_n h name s c :
  built dirs_n h ->
  table h name !! (s, c)
  = if decide (s < n_states h /\ c < n_chars h + 1) then
      Some (let d := domain_size dirs_n h name in
            if decide (d = 2) then VSym (FSym (Symbol name s c None))
            else if decide (2 < d) then VList (members name s c d)
            else VNone)
    else None.
Proof.
  intros Hb. rewrite Hb, rule_table_lookup. unfold rule_value. by rewrite length_seq.
Qed.

(** The assertions of one rule after construction: one [ExactlyOne] per
    entry when the domain has more than two values, none otherwise. *)
Lemma pair_constraints_built dirs_n h name f :
  built dirs_n h ->
  f ∈ pair_constraints (seq 0 (domain_size dirs_n h name), table h name) <->
  2 < domain_size dirs_n h name /\
  exists s c, s < n_states h /\ c < n_chars h + 1 /\
    f = FExactlyOne (members name s c (domain_size dirs_n h name)).
Proof.
  intros Hb. unfold pair_constraints. simpl. rewrite length_seq.
  set (d := domain_size dirs_n h name).
  destruct (decide (d < 2)); [split; [by intros ?%elem_of_nil|lia]|].
  destruct (decide (d = 2)); [split; [by intros ?%elem_of_nil|lia]|].
  rewrite list_elem_of_omap. split.
  - intros (v & Hv & Hf). split; [lia|].
    apply list_elem_of_fmap in Hv as ([[s c] v'] & -> & Hin). simpl in Hf.
    apply elem_of_map_to_list in Hin. rewrite (table_lookup_built dirs_n) in Hin by done.
    destruct (decide (s < n_states h /\ c < n_chars h + 1)) as [[Hs Hc]|]; [|done].
    injection Hin as <-. fold d in Hf. rewrite decide_False, decide_True in Hf by lia.
    injection Hf as <-. eauto.
  - intros (Hd & s & c & Hs & Hc & ->). exists (VList (members name s c d)). split; [|done].
    apply list_elem_of_fmap. exists ((s, c), VList (members name s c d)). split; [done|].
    apply elem_of_map_to_list. rewrite (table_lookup_built dirs_n) by done.
    rewrite decide_True by done. fold d. by rewrite decide_False, decide_True by lia.
Qed.

(** ** Properties of the backend *)

Lemma satisfies_forall a fs :
  satisfies a fs = true <-> forall f, f ∈ fs -> eval a f = true.
Proof.
  unfold satisfies. rewrite forallb_forall. split.
  - intros H f Hf. apply H. by apply list_elem_of_In.
  - intros H f Hf. apply H. by apply list_elem_of_In.
Qed.


Lemma resolve_eq backend h :
  resolve backend h =
    match backend (assertions (solver (resolved h))) with
    | Some a => Ok tt (with_model (Some a) (resolved h))
    | None => Raise UnsatException (with_model None (resolved h))
    end.
Proof.
  unfold resolve, resolved, bind, get, modify, with_model.
  destruct (decide (dirty_variables h = ∅)); simpl;
    match goal with |- context [backend ?x] => destruct (backend x) end; done.
Qed.

(** *** C7 *)

(** C7.  When construction returns, every rule whose domain has more than
    two values has, for each (state, character) pair, a one-hot list of
    member symbols whose [ExactlyOne] constraint is asserted; the solver
    holds no other assertion, so rules with a two-valued domain (a single
    symbol per pair) register none.  Consequently an assignment that
    satisfies the assertions, and so every model a sound backend returns
    once they are asserted, makes exactly one member of each one-hot group
    true, and the lookup decodes the group to the index of that member. *)
Theorem one_hot_groups_exactly_one {E : Type} (env : AlgorithmicEnv E) (n : nat) (e0 : E)
    (w : World E) :
  AlgorithmicSolver_init env n e0 = Ok tt w ->
  let h := helper w in
  let d := domain_size (action_space env).1.1 h in
  (forall name s c, 2 < d name -> s < n_states h -> c < n_chars h + 1 ->
     table h name !! (s, c) = Some (VList (members name s c (d name))) /\
     FExactlyOne (members name s c (d name)) ∈ assertions (solver h)) /\
  (forall name s c, d name = 2 -> s < n_states h -> c < n_chars h + 1 ->
     table h name !! (s, c) = Some (VSym (FSym (Symbol name s c None)))) /\
  (forall f, f ∈ assertions (solver h) ->
     exists name s c, 2 < d name /\ s < n_states h /\ c < n_chars h + 1 /\
       f = FExactlyOne (members name s c (d name))) /\
  (forall a, satisfies a (assertions (solver h)) = true ->
     forall name s c, 2 < d name -> s < n_states h -> c < n_chars h + 1 ->
     exists o, o < d name /\
       (forall o', o' < d name -> a (Symbol name s c (Some o')) = true <-> o' = o) /\
       decode_at a (table h name) c s = Some (o, FSym (Symbol name s c (Some o)))) /\
  (forall backend h1 h2 a,
     sound backend ->
     (forall f, f ∈ assertions (solver h) -> f ∈ assertions (solver h1)) ->
     resolve backend h1 = Ok tt h2 ->
     model (solver h2) = Some a ->
     satisfies a (assertions (solver h)) = true).
Proof.
  intros Hinit h d.
  destruct (init_Ok env n e0 tt w Hinit) as (Hnc & Hns & Hb & Hd & _ & _ & _ & _ & Hass).
  fold h in Hnc, Hns, Hb, Hd, Hass. fold d in Hd.
  assert (Hmem : forall f, f ∈ assertions (solver h) <->
            exists name, 2 < d name /\ exists s c, s < n_states h /\ c < n_chars h + 1 /\
              f = FExactlyOne (members name s c (d name))).
  { intros f. rewrite Hass, list_elem_of_bind. split.
    - intros (name & Hf & _). exists name. by apply (pair_constraints_built _ h) in Hf.
    - intros (name & Hf). exists name. split.
      + by apply (pair_constraints_built _ h).
      + destruct name; set_solver. }
  assert (Hone : forall a, satisfies a (assertions (solver h)) = true ->
     forall name s c, 2 < d name -> s < n_states h -> c < n_chars h + 1 ->
     exists o, o < d name /\
       (forall o', o' < d name -> a (Symbol name s c (Some o')) = true <-> o' = o) /\
       decode_at a (table h name) c s = Some (o, FSym (Symbol name s c (Some o)))).
  { intros a Hsat name s c Hdn Hs Hc.
    rewrite satisfies_forall in Hsat.
    assert (Hex : eval a (FExactlyOne (members name s c (d name))) = true).
    { apply Hsat, Hmem. exists name. split; [done|]. by exists s, c. }
    apply exactly_one_first_true in Hex as (o & f & Ho & Hf & Huniq & Hfirst).
    rewrite members_lookup in Ho. destruct (decide (o < d name)) as [Hlt|]; [|done].
    injection Ho as <-. exists o. split; [done|]. split.
    - intros o' Ho'. split.
      + intros Ha. apply (Huniq o' (FSym (Symbol name s c (Some o')))); [|done].
        rewrite members_lookup. by rewrite decide_True.
      + by intros ->.
    - unfold decode_at. rewrite (table_lookup_built _ h) by done.
      rewrite decide_True by done. simpl. fold d.
      rewrite decide_False, decide_True by lia. done. }
  repeat split.
  - rewrite (table_lookup_built _ h) by done. rewrite decide_True by done. simpl. fold d.
    by rewrite decide_False, decide_True by lia.
  - apply Hmem. exists name. split; [done|]. by exists s, c.
  - intros name s c Hdn Hs Hc. rewrite (table_lookup_built _ h) by done.
    rewrite decide_True by done. simpl. fold d. by rewrite decide_True.
  - intros f (name & Hdn & s & c & Hs & Hc & ->)%Hmem. by exists name, s, c.
  - done.
  - intros backend h1 h2 a Hsound Hincl Hres Hmodel.
    rewrite resolve_eq in Hres.
    destruct (backend (assertions (solver (resolved h1)))) as [a'|] eqn:Hback; [|done].
    injection Hres as <-. simpl in Hmodel. injection Hmodel as ->.
    apply Hsound in Hback. rewrite satisfies_forall in Hback. apply satisfies_forall.
    intros f Hf. apply Hback. unfold resolved. simpl.
    destruct (decide (dirty_variables h1 = ∅)); simpl; [by apply Hincl|].
    apply elem_of_app. left. by apply Hincl.
Qed.

(** C7, at three directions, two characters and two states: the direction
    and write rules are one-hot, the state rule is not. *)
Lemma one_hot_groups_exactly_one_witness :
  AlgorithmicSolver_init wide_env 2 0 = Ok tt (fresh_world wide_env 2) /\
  FExactlyOne (members dir_rule 1 2 3) ∈ assertions (solver (helper (fresh_world wide_env 2))) /\
  length (assertions (solver (helper (fresh_world wide_env 2)))) = 12.
Proof.
  assert (H : AlgorithmicSolver_init wide_env 2 0 = Ok tt (fresh_world wide_env 2))
    by (vm_compute; reflexivity).
  split; [exact H|]. split.
  - destruct (one_hot_groups_exactly_one wide_env 2 0 _ H) as (Hreg & _).
    apply (Hreg dir_rule 1 2); vm_compute; lia.
  - vm_compute. reflexivity.
Defined.

(** *** C9 *)

(** C9.  [get_action] returns the write flag 0 exactly when the write rule
    decodes to [n_chars], the "don't write" value, and the symbol is then
    clamped to [n_chars - 1]; otherwise the flag is 1 and the symbol is the
    decoded value, which is below [n_chars]. *)
Theorem get_action_write_flag (dirs_n : nat) (a : assignment) (h : BoolSatHelper)
    (obs state dirno do_write : nat) (to_write : Z) (h' : BoolSatHelper) :
  built dirs_n h ->
  model (solver h) = Some a ->
  get_action obs state h = Ok (dirno, do_write, to_write) h' ->
  exists writeno wf,
    decode_at a (write_rules h) obs state = Some (writeno, wf) /\
    ((do_write = 0 /\ writeno = n_chars h /\ to_write = (Z.of_nat (n_chars h) - 1)%Z) \/
     (do_write = 1 /\ writeno < n_chars h /\ to_write = Z.of_nat writeno)).
Proof.
  intros Hb Hmodel (dirno' & df & writeno & wf & _ & Hw & Hact & _)%(get_action_Ok a); [|done].
  exists writeno, wf. split; [done|].
  assert (Hle : writeno <= n_chars h).
  { unfold decode_at in Hw. change (write_rules h) with (table h write_rule) in Hw.
    rewrite (table_lookup_built dirs_n) in Hw by done.
    destruct (decide (state < n_states h /\ obs < n_chars h + 1)); [|done].
    simpl in Hw. destruct (decide (n_chars h + 1 = 2)).
    { simpl in Hw. injection Hw as <- _. destruct (a _); lia. }
    destruct (decide (2 < n_chars h + 1)); [|done].
    simpl in Hw. apply first_true_spec in Hw as (j & -> & Hj & _).
    rewrite members_lookup in Hj. destruct (decide (j < n_chars h + 1)); [lia|done]. }
  unfold write_action in Hact. injection Hact as _ -> ->.
  destruct (decide (writeno = n_chars h)) as [->|Hne].
  - left. repeat split. lia.
  - right. repeat split; lia.
Qed.

(** C9, on the first candidate for [writing_env]: the write rule decodes to
    0, so the flag is 1 and the symbol 0. *)
Lemma get_action_write_flag_witness :
  exists h',
    get_action 0 0 (helper (first_candidate writing_env 1)) = Ok (0, 1, 0%Z) h' /\
    exists writeno wf,
      decode_at (assignment_of []) (write_rules (helper (first_candidate writing_env 1))) 0 0
        = Some (writeno, wf) /\
      ((1 = 0 /\ writeno = 1 /\ 0%Z = (Z.of_nat 1 - 1)%Z) \/
       (1 = 1 /\ writeno < 1 /\ 0%Z = Z.of_nat writeno)).
Proof.
  assert (H : exists h', get_action 0 0 (helper (first_candidate writing_env 1))
                         = Ok (0, 1, 0%Z) h') by (eexists; vm_compute; reflexivity).
  destruct H as [h' H]. exists h'. split; [exact H|].
  apply (get_action_write_flag 2 (assignment_of []) (helper (first_candidate writing_env 1))
           0 0 0 1 0%Z h').
  - intros []; vm_compute; reflexivity.
  - vm_compute. reflexivity.
  - exact H.
Defined.

(** ** Nogoods *)

Lemma eval_nogood a (D : gset formula) :
  eval a (nogood_of D) = false <-> forall l, l ∈ D -> eval a l = true.
Proof.
  unfold nogood_of. simpl. rewrite negb_false_iff.
  change (forallb (eval a) (elements D)) with (satisfies a (elements D)).
  rewrite satisfies_forall. split; intros H l Hl; apply H; by apply elem_of_elements.
Qed.

Lemma eval_nogood_true a (D : gset formula) :
  eval a (nogood_of D) = true <-> exists l, l ∈ D /\ eval a l = false.
Proof.
  destruct (eval a (nogood_of D)) eqn:Hng.
  - split; [intros _|done].
    destruct (decide (Exists (fun l => eval a l = false) (elements D))) as [Hex|Hex].
    + apply Exists_exists in Hex as (l & Hl%list_elem_of_In & Hf). exists l.
      split; [by apply elem_of_elements|done].
    + assert (eval a (nogood_of D) = false); [|congruence].
      apply eval_nogood. intros l Hl. destruct (eval a l) eqn:Hev; [done|].
      exfalso. apply Hex, Exists_exists. exists l.
      split; [by apply list_elem_of_In, elem_of_elements|done].
  - split; [done|]. intros (l & Hl & Hf).
    rewrite eval_nogood in Hng. specialize (Hng l Hl). congruence.
Qed.


(** *** C10 *)



(** ** Evaluating a candidate *)

Section Evaluation.
Context {E : Type}.
Variable env : AlgorithmicEnv E.
Variable fuel : nat.

Lemma clear_dirty_Ok (w : World E) r w' :
  on_helper clear_dirty w = Ok r w' <-> r = tt /\ w' = cleared w.
Proof.
  rewrite on_helper_Ok. unfold clear_dirty, modify, cleared. split.
  - intros (h' & Heq & ->). injection Heq as _ <-. by destruct r.
  - intros [-> ->]. eauto.
Qed.

(** The loop of [try_model] runs one evaluation: it leaves at the first
    failed or qualifying episode, or clears after the last episode when the
    cap is reached. *)
Lemma try_model_loop_Ok cap tfuel l (w : World E) l' w' :
  try_model_loop env cap fuel tfuel l w = Ok l' w' ->
  ((cap <= tl_i l)%N /\ l' = l /\ w' = w) \/
  exists rs sr wl,
    evaluation env fuel w rs sr wl /\
    (tl_i l + N.of_nat (length rs) < cap)%N /\
    tl_i l' = (tl_i l + N.of_nat (length rs) + 1)%N /\
    tl_goodeps l' = (tl_goodeps l + N.of_nat (length rs) + (if sr.1 then 1 else 0))%N /\
    tl_last l' = Some sr /\
    ((w' = wl /\ (sr.1 = false \/ qualifies env sr.2 = true)) \/
     (w' = cleared wl /\ tl_i l' = cap /\ sr.1 = true /\ qualifies env sr.2 = false)).
Proof.
  revert l w. induction tfuel as [|tfuel IH]; intros l w H; simpl in H;
    destruct (tl_i l <? cap)%N eqn:Hlt;
    try (left; unfold ret in H; injection H as <- <-; apply N.ltb_ge in Hlt; done).
  { done. }
  apply N.ltb_lt in Hlt.
  right. apply bind_Ok in H as ([success reward] & w1 & Hep & H).
  destruct success; simpl in H.
  - destruct (qualifies env reward) eqn:Hq.
    + unfold ret in H. injection H as <- <-.
      exists [], (true, reward), w1. simpl. repeat split; try lia; try done.
      * by constructor.
      * left. auto.
    + apply bind_Ok in H as (? & w2 & [_ ->]%clear_dirty_Ok & H).
      apply IH in H as [(Hge & -> & ->)|(rs & sr & wl & Hev & Hlen & Hi & Hg & Hlast & Hend)].
      * simpl in Hge. exists [], (true, reward), w1. simpl.
        repeat split; try lia; try done.
        -- by constructor.
        -- right. repeat split; try done. lia.
      * simpl in Hlen, Hi, Hg. exists (reward :: rs), sr, wl.
        repeat split; try done.
        -- by econstructor.
        -- simpl length. lia.
        -- simpl length. lia.
        -- simpl length. lia.
  - unfold ret in H. injection H as <- <-.
    exists [], (false, reward), w1. simpl. repeat split; try lia; try done.
    + by constructor.
    + left. auto.
Qed.

(** The verdict of [try_model] is whether the total reward of the last
    episode it ran reaches the threshold. *)
Lemma try_model_with_Ok cap (w : World E) b w' :
  try_model_with env cap fuel w = Ok b w' ->
  exists rs sr wl,
    evaluation env fuel w rs sr wl /\
    (N.of_nat (length rs) < cap)%N /\
    b = qualifies env sr.2 /\
    helper w' = helper (if decide (sr.1 = true /\ qualifies env sr.2 = false)
                        then cleared wl else wl) /\
    env_st w' = env_st wl /\
    (sr.1 = true -> b = false -> (N.of_nat (length rs) + 1)%N = cap).
Proof.
  unfold try_model_with. intros H. apply bind_Ok in H as (l' & w1 & Hloop & H).
  apply try_model_loop_Ok in Hloop
    as [(_ & -> & ->)|(rs & [s r] & wl & Hev & Hlen & Hi & Hg & Hlast & Hend)].
  { done. }
  rewrite Hlast in H. simpl in *. exists rs, (s, r), wl. simpl.
  destruct (qualifies env r) eqn:Hq.
  - unfold ret in H. injection H as <- <-.
    destruct Hend as [[-> _]|(_ & _ & _ & ?)]; [|done].
    repeat split; try done; case_decide; naive_solver.
  - apply bind_Ok in H as (? & w2 & H2 & H).
    apply bind_Ok in H as (? & w3 & H3 & H). unfold ret in H. injection H as <- <-.
    assert (helper w3 = helper w1 /\ env_st w3 = env_st w1) as [-> ->].
    { assert (helper w2 = helper w1 /\ env_st w2 = env_st w1) as [<- <-].
      { destruct (decide (tl_i l' = cap)); [by apply on_log_Ok in H2 as (? & _ & ->)|].
        unfold ret in H2. by injection H2 as _ <-. }
      destruct (decide (tl_goodeps l' = 0%N)); [|by apply on_log_Ok in H3 as (? & _ & ->)].
      unfold ret in H3. by injection H3 as _ <-. }
    destruct Hend as [[-> [->|?]]|(-> & Hcap & -> & _)]; [|done|];
      repeat split; try done; try lia; case_decide; naive_solver.
Qed.
End Evaluation.

Lemma set_dirty_clean {E : Type} (w : World E) :
  clean w -> set_dirty ∅ ∅ (helper w) = helper w.
Proof. intros [Hv Hb]. destruct (helper w); simpl in *. by subst. Qed.

(** The last episode of an evaluation that starts clean starts clean too,
    under the same tables and model. *)
Lemma evaluation_last_episode {E : Type} (env : AlgorithmicEnv E) fuel a
    (w : World E) rs sr wl :
  model (solver (helper w)) = Some a ->
  clean w ->
  evaluation env fuel w rs sr wl ->
  exists ws, helper ws = helper w /\ run_episode env fuel ws = Ok sr wl.
Proof.
  intros Hmodel Hclean Hev. induction Hev as [w sr w' Hrun|w r w1 rs sr w' Hrun Hq Hev IH].
  - by exists w.
  - destruct (run_episode_Ok env a _ _ _ _ Hmodel Hrun) as (ds & d & _ & Hh & _).
    destruct IH as (ws & Hws & Hlast).
    + simpl. by rewrite Hh.
    + by split.
    + exists ws. split; [|done]. rewrite Hws. simpl. rewrite Hh. simpl.
      by apply set_dirty_clean.
Qed.

(** *** C2 *)



Lemma size_pending d : size (pending d) <= 2.
Proof.
  unfold pending. destruct (sd_state d) as [f|].
  - rewrite size_union_alt, size_singleton.
    assert (size (({[f]} : gset formula) ∖ {[sd_dir d]}) <= size ({[f]} : gset formula))
      by (apply subseteq_size; set_solver).
    rewrite size_singleton in *. lia.
  - rewrite union_empty_r_L, size_singleton. lia.
Qed.

(** *** C8 *)

(** C8.  At every step of every evaluation, [get_action] first moves the
    buffer into the provenance set, commits the write literal and leaves
    exactly the direction literal in the buffer; [get_state] adds at most the
    next-state literal, so the buffer holds the pair of the latest step and
    never more than two literals.  The loop of [try_model] clears both sets
    after every episode that does not end it, so the last episode starts with
    both sets empty and the provenance set it leaves holds the literals of
    that episode alone (or nothing, when the loop ends at the episode cap). *)
Theorem buffer_and_provenance_discipline {E : Type} (env : AlgorithmicEnv E)
    (a : assignment) (cap : N) (fuel tfuel : nat) (l l' : try_locals) (w w' : World E) :
  model (solver (helper w)) = Some a ->
  clean w ->
  (tl_i l < cap)%N ->
  try_model_loop env cap fuel tfuel l w = Ok l' w' ->
  (forall (h h1 h2 : BoolSatHelper) obs state act st,
     model (solver h) = Some a ->
     get_action obs state h = Ok act h1 ->
     get_state obs state h1 = Ok st h2 ->
     exists d, decide_step a h obs state = Some d /\
       dirty_variables h1 = dirty_variables h ∪ dirty_buffer h ∪ {[sd_write d]} /\
       dirty_buffer h1 = {[sd_dir d]} /\
       dirty_variables h2 = dirty_variables h1 /\
       dirty_buffer h2 = pending d /\
       size (dirty_buffer h2) <= 2) /\
  exists rs sr wl ws,
    evaluation env fuel w rs sr wl /\
    clean ws /\ helper ws = helper w /\ run_episode env fuel ws = Ok sr wl /\
    (w' = wl \/ (w' = cleared wl /\ clean w')) /\
    exists ds d,
      episode_trace env fuel a (helper w) (reset env (env_st ws)).2 (reset env (env_st ws)).1
                    0 0%Q
        = Some (ds ++ [d], sr, env_st wl) /\
      dirty_variables (helper wl) = writes (ds ++ [d]) ∪ pendings ds /\
      dirty_buffer (helper wl) = pending d.
Proof.
  intros Hmodel Hclean Hrem Hloop. split.
  - intros h h1 h2 obs state act st Hm Ha Hs.
    destruct (get_action_state_Ok a _ _ _ _ _ _ _ Hm Ha Hs) as (d & Hd & _ & _ & Hh2).
    exists d. split; [done|].
    apply (get_action_Ok a) in Ha as (dirno & df & writeno & wf & Hdd & Hdw & _ & ->); [|done].
    unfold decide_step in Hd. rewrite Hdd, Hdw in Hd. simpl in Hd.
    destruct (if decide (n_states h = 1) then _ else _) as [s|]; [|done].
    simpl in Hd. injection Hd as <-. rewrite Hh2. simpl.
    repeat split. apply size_pending.
  - apply try_model_loop_Ok in Hloop as [(? & _)|(rs & sr & wl & Hev & _ & _ & _ & _ & Hend)].
    { lia. }
    destruct (evaluation_last_episode env fuel a w rs sr wl Hmodel Hclean Hev)
      as (ws & Hws & Hrun).
    assert (Hcws : clean ws) by (destruct Hclean; split; by rewrite Hws).
    exists rs, sr, wl, ws. repeat split; try done; try apply Hcws.
    + destruct Hend as [[-> _]|(-> & _)]; [by left|right]. by repeat split.
    + assert (Hmws : model (solver (helper ws)) = Some a) by (by rewrite Hws).
      destruct (run_episode_Ok env a _ _ _ _ Hmws Hrun) as (ds & d & Htr & Hh & _).
      destruct Hcws as [Hv Hb]. exists ds, d. rewrite <- Hws. split; [done|].
      rewrite Hh, Hv, Hb. simpl. split; [set_solver|done].
Qed.

(** C8, on two episodes of [modest_env] under a cap of two: both are
    discarded and the evaluation ends with both sets empty. *)
Lemma buffer_and_provenance_discipline_witness :
  exists l' w',
    try_model_loop modest_env 2 5 5 {| tl_i := 0; tl_goodeps := 0; tl_last := None |}
      modest_world = Ok l' w' /\
    tl_i l' = 2%N /\ clean w' /\
    exists rs sr wl ws,
      evaluation modest_env 5 modest_world rs sr wl /\
      clean ws /\ run_episode modest_env 5 ws = Ok sr wl /\
      (w' = wl \/ (w' = cleared wl /\ clean w')).
Proof.
  assert (Hm : model (solver (helper modest_world)) = Some (assignment_of []))
    by (vm_compute; reflexivity).
  assert (Hc : clean modest_world) by (split; vm_compute; reflexivity).
  assert (Hrun : exists l' w',
            try_model_loop modest_env 2 5 5 {| tl_i := 0; tl_goodeps := 0; tl_last := None |}
              modest_world = Ok l' w' /\ tl_i l' = 2%N /\ clean w')
    by (do 2 eexists; vm_compute; repeat split; reflexivity).
  destruct Hrun as (l' & w' & Hrun & Hi & Hcw).
  exists l', w'. split; [exact Hrun|]. split; [exact Hi|]. split; [exact Hcw|].
  destruct (buffer_and_provenance_discipline modest_env (assignment_of []) 2 5 5
              {| tl_i := 0; tl_goodeps := 0; tl_last := None |} l'
              modest_world w' Hm Hc eq_refl Hrun)
    as (_ & rs & sr & wl & ws & Hev & Hcws & _ & Hlast & Hend & _).
  exists rs, sr, wl, ws. repeat split; try done; apply Hcws.
Defined.

(** *** C1 *)

(** C1 as stated fails: for a task with [trials = 2], [try_model] returns
    [True] after a single episode that reaches the threshold. *)
Lemma succeeded_after_one_episode :
  trials (spec generous_env) = 2 /\
  exists l w',
    try_model_loop generous_env max_eps 5 5 {| tl_i := 0; tl_goodeps := 0; tl_last := None |}
      generous_world = Ok l w' /\
    tl_i l = 1%N /\
    try_model generous_env 5 generous_world = Ok true w' /\
    evaluation generous_env 5 generous_world [] (true, 1%Q) w'.
Proof.
  split; [reflexivity|].
  do 2 eexists. split; [vm_compute; reflexivity|]. split; [reflexivity|].
  split; [vm_compute; reflexivity|]. constructor. vm_compute. reflexivity.
Qed.

(** C1, amended.  [try_model] returns [True] exactly when the last episode
    it ran has a total reward at or above [reward_threshold]; the episodes
    before it were each successful, below the threshold and discarded.  One
    successful episode that reaches the threshold is enough, whatever the
    task's [trials]. *)
Theorem try_model_verdict {E : Type} (env : AlgorithmicEnv E) (fuel : nat)
    (w : World E) (b : bool) (w' : World E) :
  try_model env fuel w = Ok b w' ->
  exists rs sr wl,
    evaluation env fuel w rs sr wl /\
    (N.of_nat (length rs) < max_eps)%N /\
    (b = true <-> qualifies env sr.2 = true) /\
    (forall r w1, run_episode env fuel w = Ok (true, r) w1 -> qualifies env r = true ->
       b = true /\ rs = [] /\ helper w' = helper w1 /\ env_st w' = env_st w1).
Proof.
  intros (rs & sr & wl & Hev & Hlen & -> & Hh & He & _)%try_model_with_Ok.
  exists rs, sr, wl. split; [exact Hev|]. split; [exact Hlen|]. split; [reflexivity|].
  intros r w1 Hrun1 Hq1.
  inversion Hev as [? ? ? Hrun|? ? ? ? ? ? Hrun Hq _]; subst; rewrite Hrun1 in Hrun.
  - injection Hrun as <- <-. simpl in Hh, He |- *. rewrite Hq1 in Hh.
    rewrite decide_False in Hh by (intros [_ ?]; done).
    exact (conj Hq1 (conj eq_refl (conj Hh He))).
  - injection Hrun as <- <-. congruence.
Qed.

(** C1 amended, on [generous_env]: the verdict is [True] after one episode. *)
Lemma try_model_verdict_witness :
  exists w',
    try_model generous_env 5 generous_world = Ok true w' /\
    exists rs sr wl,
      evaluation generous_env 5 generous_world rs sr wl /\
      (N.of_nat (length rs) < max_eps)%N /\
      (true = true <-> qualifies generous_env sr.2 = true).
Proof.
  assert (H : exists w', try_model generous_env 5 generous_world = Ok true w')
    by (eexists; vm_compute; reflexivity).
  destruct H as [w' H]. exists w'. split; [exact H|].
  destruct (try_model_verdict generous_env 5 generous_world true w' H)
    as (rs & sr & wl & Hev & Hlen & Hb & _).
  exists rs, sr, wl. exact (conj Hev (conj Hlen Hb)).
Defined.

(** ** One iteration of [solve] *)

Section Iteration.
Context {E : Type}.
Variable backend : list formula -> option assignment.
Variable env : AlgorithmicEnv E.
Variable efuel : nat.

Lemma on_log_logging ev (w : World E) : on_log (logging ev) w = Ok tt (logged ev w).
Proof. done. Qed.

Lemma solve_loop_done fuel maxiters i (w : World E) :
  below i maxiters = false ->
  solve_loop backend env efuel fuel maxiters i w = Ok false (logged (WarnUsedUp maxiters) w).
Proof. intros Hb. destruct fuel; simpl; by rewrite Hb. Qed.

Lemma solve_loop_step fuel maxiters i (w : World E) :
  below i maxiters = true ->
  solve_loop backend env efuel (S fuel) maxiters i w =
    match backend (assertions (solver (resolved (helper w)))) with
    | None => Ok false (logged (WarnExhausted (i + 1)) (after_resolve None w))
    | Some a =>
        match try_model env efuel (after_resolve (Some a) w) with
        | Ok true w2 => Ok true (logged (InfoSolved (i + 1)) w2)
        | Ok false w2 => solve_loop backend env efuel fuel maxiters (i + 1) (progress (i + 1) w2)
        | Raise e w2 => Raise e w2
        | NoFuel => NoFuel
        end
    end.
Proof.
  intros Hb. cbn [solve_loop]. rewrite Hb. unfold bind at 1, try_unsat, on_helper, zoom.
  rewrite resolve_eq.
  destruct (backend (assertions (solver (resolved (helper w))))) as [a|]; [|done].
  fold (after_resolve (Some a) w). unfold bind at 1.
  destruct (try_model env efuel (after_resolve (Some a) w)) as [[|] w2|e w2|]; try done.
  unfold bind at 1, progress.
  destruct (decide ((i + 1) mod 500 = 0)); done.
Qed.
End Iteration.

(** *** C6 *)

(** C6 as stated fails: when no assignment is left, [resolve] does not
    return a value, it raises [UnsatException]. *)
Lemma unsat_is_raised :
  resolve (backend_for failing_env 1) (helper exhausted_world)
    = Raise UnsatException (with_model None (resolved (helper exhausted_world))) /\
  ~ exists r h', resolve (backend_for failing_env 1) (helper exhausted_world) = Ok r h'.
Proof.
  assert (H : resolve (backend_for failing_env 1) (helper exhausted_world)
              = Raise UnsatException (with_model None (resolved (helper exhausted_world)))).
  { rewrite resolve_eq.
    assert (Hb : backend_for failing_env 1 (assertions (solver (resolved (helper exhausted_world))))
                 = None) by (vm_compute; reflexivity).
    by rewrite Hb. }
  split; [exact H|]. intros (r & h' & Hok). congruence.
Qed.

(** C6, amended.  When the backend finds no model, [resolve] raises
    [UnsatException] after asserting the pending nogood and clearing both
    sets; [solve] catches the exception, logs the exhaustion and returns
    [False]. *)
Theorem unsat_raised_and_caught {E : Type} (backend : list formula -> option assignment)
    (env : AlgorithmicEnv E) (efuel fuel : nat) (maxiters : option nat) (i : nat)
    (w : World E) :
  backend (assertions (solver (resolved (helper w)))) = None ->
  below i maxiters = true ->
  resolve backend (helper w) = Raise UnsatException (with_model None (resolved (helper w))) /\
  solve_loop backend env efuel (S fuel) maxiters i w
    = Ok false (logged (WarnExhausted (i + 1)) (after_resolve None w)).
Proof.
  intros Hnone Hbelow. split.
  - by rewrite resolve_eq, Hnone.
  - by rewrite solve_loop_step, Hnone.
Qed.

(** C6 amended, on the exhausted world of [failing_env]. *)
Lemma unsat_raised_and_caught_witness :
  backend_for failing_env 1 (assertions (solver (resolved (helper exhausted_world)))) = None /\
  solve_loop (backend_for failing_env 1) failing_env 5 1 None 2 exhausted_world
    = Ok false (logged (WarnExhausted 3) (after_resolve None exhausted_world)).
Proof.
  assert (Hb : backend_for failing_env 1 (assertions (solver (resolved (helper exhausted_world))))
               = None) by (vm_compute; reflexivity).
  split; [exact Hb|].
  exact (proj2 (unsat_raised_and_caught (backend_for failing_env 1) failing_env 5 0 None 2
                  exhausted_world Hb eq_refl)).
Defined.

(** *** C5 *)




(** ** Assignments over a finite set of symbols *)

Lemma closed_in_spec V f :
  closed_in V f = true <-> forall v, v ∈ formula_symbols f -> v ∈ V.
Proof.
  unfold closed_in. rewrite forallb_forall. split.
  - intros H v Hv. apply list_elem_of_In in Hv. apply H in Hv. by apply bool_decide_eq_true in Hv.
  - intros H v Hv. apply bool_decide_eq_true, H. by apply list_elem_of_In.
Qed.

Lemma elem_of_concat_map {A B} (f : A -> list B) (l : list A) (y : B) :
  y ∈ concat (map f l) <-> exists x, x ∈ l /\ y ∈ f x.
Proof.
  induction l as [|x l IH]; simpl.
  - split; [by intros ?%elem_of_nil|]. by intros (? & ?%elem_of_nil & _).
  - rewrite elem_of_app, IH. split.
    + intros [?|(x' & ? & ?)]; [exists x|exists x']; split; try done; [left|by right].
    + intros (x' & [->|?]%elem_of_cons & ?); [by left|right; by exists x'].
Qed.









Lemma enum_backend_sound V : sound (enum_backend V).
Proof.
  intros fs a. unfold enum_backend.
  destruct (List.find _ (sublists V)) as [t|] eqn:Hf; [|done].
  intros [= <-]. by apply find_some in Hf as [_ ?].
Qed.


(** ** The literals of an evaluation *)

Lemma elem_of_table_symbols h v :
  v ∈ table_symbols h <->
  exists name k thing, table h name !! k = Some thing /\ v ∈ val_symbols thing.
Proof.
  unfold table_symbols. rewrite list_elem_of_bind. split.
  - intros (name & Hv & _). apply list_elem_of_bind in Hv as ([k thing] & Hv & Hin).
    apply elem_of_map_to_list in Hin. by exists name, k, thing.
  - intros (name & k & thing & Hk & Hv). exists name. split.
    + apply list_elem_of_bind. exists (k, thing). split; [done|]. by apply elem_of_map_to_list.
    + destruct name; set_solver.
Qed.

(** A decoded literal holds under the model and mentions only symbols of
    its table entry. *)
Lemma decode_at_literal a h name obs state r f :
  decode_at a (table h name) obs state = Some (r, f) ->
  eval a f = true /\ closed_in (table_symbols h) f = true.
Proof.
  unfold decode_at. destruct (table h name !! (state, obs)) as [thing|] eqn:Hk; [|done].
  simpl. intros Hdec. split; [by apply decode_true in Hdec|].
  apply closed_in_spec. intros v Hv. apply elem_of_table_symbols.
  exists name, (state, obs), thing. split; [done|].
  destruct thing as [|g|l]; simpl in *; [done| |].
  - destruct (eval a g); injection Hdec as _ <-; done.
  - apply first_true_spec in Hdec as (j & _ & Hj & _).
    apply elem_of_concat_map. exists f. split; [|done]. apply list_elem_of_lookup. eauto.
Qed.

Lemma decide_step_literals a h obs state d :
  decide_step a h obs state = Some d ->
  good_literal a h (sd_write d) /\ forall l, l ∈ pending d -> good_literal a h l.
Proof.
  unfold decide_step. intros H.
  destruct (decode_at a (direction_rules h) obs state) as [[dn df]|] eqn:Hd; [|done].
  destruct (decode_at a (write_rules h) obs state) as [[wn wf]|] eqn:Hw; [|done].
  simpl in H.
  apply (decode_at_literal a h dir_rule) in Hd.
  apply (decode_at_literal a h write_rule) in Hw.
  destruct (decide (n_states h = 1)).
  - simpl in H. injection H as <-. split; [done|]. unfold pending. simpl.
    intros l Hl. assert (l = df) as -> by set_solver. done.
  - destruct (decode_at a (state_rules h) obs state) as [[sn sf]|] eqn:Hs; [|done].
    apply (decode_at_literal a h state_rule) in Hs.
    simpl in H. injection H as <-. split; [done|]. unfold pending. simpl.
    intros l Hl. apply elem_of_union in Hl as [Hl|Hl]; apply elem_of_singleton in Hl; by subst.
Qed.

Lemma episode_trace_steps {E : Type} (env : AlgorithmicEnv E) fuel a h e obs state total tr r e' :
  episode_trace env fuel a h e obs state total = Some (tr, r, e') ->
  Forall (fun d => exists obs state, decide_step a h obs state = Some d) tr.
Proof.
  revert e obs state total tr. induction fuel as [|fuel IH]; intros e obs state total tr H; [done|].
  simpl in H. destruct (decide_step a h obs state) as [d|] eqn:Hd; [|done]. simpl in H.
  destruct (step env e (sd_action d)) as [[[obs' reward] done] e1].
  destruct done.
  - injection H as <- _ _. apply Forall_cons_2; [by exists obs, state|apply Forall_nil_2].
  - destruct (episode_trace env fuel a h e1 obs' (sd_next d) (total + reward)%Q)
      as [[[tr1 r1] e2]|] eqn:Htr; simpl in H; [|done].
    injection H as <- <- <-. apply Forall_cons_2; [by exists obs, state|].
    by eapply IH.
Qed.

(** What an evaluation leaves in the helper: the solver and tables are
    untouched, and every literal of the provenance set holds under the
    candidate and mentions only symbols of the tables. *)
Lemma try_model_effect {E : Type} (env : AlgorithmicEnv E) cap efuel a (w : World E) b w' :
  model (solver (helper w)) = Some a ->
  clean w ->
  try_model_with env cap efuel w = Ok b w' ->
  exists D B, helper w' = set_dirty D B (helper w) /\
    forall l, l ∈ D -> good_literal a (helper w) l.
Proof.
  intros Hmodel Hclean (rs & sr & wl & Hev & _ & _ & Hh & _)%try_model_with_Ok.
  destruct (evaluation_last_episode env efuel a w rs sr wl Hmodel Hclean Hev)
    as (ws & Hws & Hrun).
  assert (Hmws : model (solver (helper ws)) = Some a) by (by rewrite Hws).
  destruct (run_episode_Ok env a _ _ _ _ Hmws Hrun) as (ds & d & Htr & Hwl & _).
  rewrite Hws in Hwl, Htr. destruct Hclean as [Hv Hb]. rewrite Hv, Hb in Hwl.
  destruct (decide _).
  - exists ∅, ∅. split; [by rewrite Hh; simpl; rewrite Hwl|]. set_solver.
  - eexists _, _. split; [by rewrite Hh, Hwl|].
    apply episode_trace_steps in Htr. rewrite Forall_forall in Htr.
    assert (Htr' : forall x, x ∈ ds ++ [d] ->
              exists obs state, decide_step a (helper w) obs state = Some x)
      by (intros x Hx; by apply Htr, list_elem_of_In).
    clear Htr. rename Htr' into Htr.
    intros l Hl.
    assert (Hcases : (exists d', d' ∈ ds ++ [d] /\ l = sd_write d') \/
                     (exists d', d' ∈ ds /\ l ∈ pending d')).
    { unfold writes, pendings in Hl.
      apply elem_of_union in Hl as [Hl|Hl].
      - apply elem_of_union in Hl as [Hl|Hl]; [set_solver|].
        left. apply elem_of_list_to_set, list_elem_of_fmap in Hl as (d' & -> & Hd'). eauto.
      - right. apply elem_of_union_list in Hl as (X & HX & Hl).
        apply list_elem_of_fmap in HX as (d' & -> & Hd'). eauto. }
    destruct Hcases as [(d' & Hd' & ->)|(d' & Hd' & Hl')].
    + destruct (Htr d' Hd') as (o & s & Hstep). by apply decide_step_literals in Hstep as [? _].
    + destruct (Htr d') as (o & s & Hstep); [apply elem_of_app; by left|].
      apply decide_step_literals in Hstep as [_ Hp]. by apply Hp.
Qed.

(** ** Termination of the refinement loop *)



Lemma assertions_resolved h :
  assertions (solver (resolved h))
  = if decide (dirty_variables h = ∅) then assertions (solver h)
    else assertions (solver h) ++ [nogood_of (dirty_variables h)].
Proof. unfold resolved. by destruct (decide (dirty_variables h = ∅)). Qed.


Lemma helper_progress {E : Type} i (w : World E) : helper (progress i w) = helper w.
Proof. unfold progress. by destruct (decide (i mod 500 = 0)). Qed.

Section Termination.
Context {E : Type}.
Variable backend : list formula -> option assignment.
Variable env : AlgorithmicEnv E.
Variable efuel : nat.
Variable V : list symbol.
Variable h0 : BoolSatHelper.

Hypothesis Hsound : sound backend.
Hypothesis Htables : forall v, v ∈ table_symbols h0 -> v ∈ V.
Hypothesis Hevaluate :
  forall w : World E,
    same_static h0 (helper w) -> clean w -> is_Some (model (solver (helper w))) ->
    exists b w', try_model env efuel w = Ok b w' /\
                 (b = false -> dirty_variables (helper w') <> ∅).


End Termination.



(** *** C4 *)











(** ** Assertions are never retracted *)

Lemma resolved_keeps_assertions h f :
  f ∈ assertions (solver h) -> f ∈ assertions (solver (resolved h)).
Proof.
  intros Hf. rewrite assertions_resolved.
  destruct (decide (dirty_variables h = ∅)); [done|]. apply elem_of_app. by left.
Qed.

(** A run of [solve] that returns keeps every assertion it started with,
    and when it returns [True] its model satisfies them. *)
Lemma solve_loop_keeps_assertions {E : Type} (backend : list formula -> option assignment)
    (env : AlgorithmicEnv E) efuel fuel maxiters f :
  sound backend ->
  forall i (w w' : World E) b,
    f ∈ assertions (solver (helper w)) ->
    solve_loop backend env efuel fuel maxiters i w = Ok b w' ->
    f ∈ assertions (solver (helper w')) /\
    (b = true -> exists a', model (solver (helper w')) = Some a' /\ eval a' f = true).
Proof.
  intros Hsound. induction fuel as [|fuel IH]; intros i w w' b Hf H;
    destruct (below i maxiters) eqn:Hb;
    try (rewrite solve_loop_done in H by done; injection H as <- <-; by split).
  - simpl in H. by rewrite Hb in H.
  - rewrite solve_loop_step in H by done.
    destruct (backend (assertions (solver (resolved (helper w))))) as [a'|] eqn:Hback.
    + assert (Hm : model (solver (helper (after_resolve (Some a') w))) = Some a') by done.
      assert (Hc : clean (after_resolve (Some a') w)) by done.
      destruct (try_model env efuel (after_resolve (Some a') w)) as [b2 w2|e w2|] eqn:Htry;
        [|done|done].
      destruct (try_model_effect env max_eps efuel a' _ b2 w2 Hm Hc Htry) as (D & B & Hh2 & _).
      destruct b2.
      * injection H as <- <-. simpl. rewrite Hh2. simpl. split.
        -- by apply resolved_keeps_assertions.
        -- intros _. exists a'. split; [done|].
           apply Hsound in Hback. rewrite satisfies_forall in Hback.
           by apply Hback, resolved_keeps_assertions.
      * apply IH in H; [done|]. rewrite helper_progress, Hh2. simpl.
        by apply resolved_keeps_assertions.
    + injection H as <- <-. simpl. split; [|done]. by apply resolved_keeps_assertions.
Qed.

(** *** C3 *)

(** C3.  When the provenance set is non-empty, [resolve] asserts the
    negation of the conjunction of its literals.  An assignment satisfies
    this nogood exactly when it gives at least one of the literals a value
    other than the one it has under the current model, which therefore
    violates it.  The nogood stays asserted: every later [resolve] that
    returns keeps it and installs a model that satisfies it, and so does
    every run of [solve]. *)
Theorem nogood_asserted_permanently {E : Type} (backend : list formula -> option assignment)
    (env : AlgorithmicEnv E) (a : assignment) (h : BoolSatHelper) :
  sound backend ->
  dirty_variables h <> ∅ ->
  model (solver h) = Some a ->
  satisfies a (elements (dirty_variables h)) = true ->
  (forall a', eval a' (nogood_of (dirty_variables h)) = true <->
              exists l, l ∈ dirty_variables h /\ eval a' l <> eval a l) /\
  eval a (nogood_of (dirty_variables h)) = false /\
  (exists h1,
     (resolve backend h = Ok tt h1 \/ resolve backend h = Raise UnsatException h1) /\
     assertions (solver h1) = assertions (solver h) ++ [nogood_of (dirty_variables h)]) /\
  (forall h2 h3,
     nogood_of (dirty_variables h) ∈ assertions (solver h2) ->
     resolve backend h2 = Ok tt h3 ->
     nogood_of (dirty_variables h) ∈ assertions (solver h3) /\
     exists a', model (solver h3) = Some a' /\ eval a' (nogood_of (dirty_variables h)) = true) /\
  (forall efuel fuel maxiters i (w w' : World E) b,
     nogood_of (dirty_variables h) ∈ assertions (solver (helper w)) ->
     solve_loop backend env efuel fuel maxiters i w = Ok b w' ->
     nogood_of (dirty_variables h) ∈ assertions (solver (helper w')) /\
     (b = true -> exists a', model (solver (helper w')) = Some a' /\
                             eval a' (nogood_of (dirty_variables h)) = true)).
Proof.
  intros Hsound Hne Hmodel Htrue. rewrite satisfies_forall in Htrue.
  assert (Hlit : forall l, l ∈ dirty_variables h -> eval a l = true)
    by (intros l Hl; by apply Htrue, elem_of_elements).
  split; [|split; [|split; [|split]]].
  - intros a'. rewrite eval_nogood_true. split; intros (l & Hl & Hev); exists l; (split; [done|]).
    + rewrite Hlit by done. by rewrite Hev.
    + rewrite Hlit in Hev by done. by destruct (eval a' l).
  - by apply eval_nogood.
  - rewrite resolve_eq.
    assert (Hass : assertions (solver (resolved h))
                   = assertions (solver h) ++ [nogood_of (dirty_variables h)])
      by (rewrite assertions_resolved; by rewrite decide_False).
    destruct (backend (assertions (solver (resolved h)))); eexists; (split; [eauto|done]).
  - intros h2 h3 Hin Hres. rewrite resolve_eq in Hres.
    destruct (backend (assertions (solver (resolved h2)))) as [a'|] eqn:Hback; [|done].
    injection Hres as <-. cbn [with_model set_solver_of solver assertions model].
    split; [by apply resolved_keeps_assertions|].
    exists a'. split; [done|]. apply Hsound in Hback. rewrite satisfies_forall in Hback.
    by apply Hback, resolved_keeps_assertions.
  - intros efuel fuel maxiters i w w' b Hin Hrun.
    by apply (solve_loop_keeps_assertions backend env efuel fuel maxiters _ Hsound i w w' b).
Qed.

(** C3, on the provenance set left by the failing episode of
    [three_step_env]. *)
Lemma nogood_asserted_permanently_witness :
  dirty_variables (helper failed_world) <> ∅ /\
  model (solver (helper failed_world)) = Some (assignment_of []) /\
  satisfies (assignment_of []) (elements (dirty_variables (helper failed_world))) = true /\
  eval (assignment_of []) (nogood_of (dirty_variables (helper failed_world))) = false /\
  exists h1,
    (resolve (backend_for three_step_env 2) (helper failed_world) = Ok tt h1 \/
     resolve (backend_for three_step_env 2) (helper failed_world) = Raise UnsatException h1) /\
    assertions (solver h1)
    = assertions (solver (helper failed_world))
      ++ [nogood_of (dirty_variables (helper failed_world))].
Proof.
  assert (Hne : dirty_variables (helper failed_world) <> ∅).
  { intros Hempty. apply (f_equal size) in Hempty. vm_compute in Hempty. discriminate. }
  assert (Hm : model (solver (helper failed_world)) = Some (assignment_of []))
    by (vm_compute; reflexivity).
  assert (Ht : satisfies (assignment_of []) (elements (dirty_variables (helper failed_world)))
               = true) by (vm_compute; reflexivity).
  destruct (nogood_asserted_permanently (backend_for three_step_env 2) three_step_env
              (assignment_of []) (helper failed_world)
              (enum_backend_sound _) Hne Hm Ht) as (_ & Hcur & Hres & _).
  exact (conj Hne (conj Hm (conj Ht (conj Hcur Hres)))).
Defined.

(** ** The brute-force evaluation counts trials *)

(** [AlgorithmicPolicy.run] returns [True] only after as many episodes as
    the countdown it starts from, the task's [trials]: each pass of its loop
    runs one episode and lowers the countdown by at most one. *)
Lemma brute_force_run_counts_trials {E : Type} (env : AlgorithmicEnv E)
    (pol : BruteForce.AlgorithmicPolicy) (efuel fuel n : nat) (e e' : E) :
  BruteForce.run_loop env pol efuel fuel n e = Ok true e' -> n <= fuel.
Proof.
  revert n e. induction fuel as [|fuel IH]; intros n e H; simpl in H.
  - destruct (decide (n = 0)); [lia|done].
  - destruct (decide (n = 0)); [lia|].
    apply bind_Ok in H as ([success reward] & e1 & _ & H).
    destruct success; simpl in H; [|done].
    destruct (Qle_bool (reward_threshold (spec env)) reward); apply IH in H; lia.
Qed.

(** ** Construction succeeds exactly on non-empty domains *)

Lemma rule_vars_eq states chars_plus name dom l :
  _rule_vars states chars_plus name dom l =
    if decide (1 <= length dom) then
      Ok (rule_table_of states chars_plus name dom)
         (if decide (length dom = 1) then l ++ [WarnOneValue name] else l)
    else Raise AssertionError l.
Proof.
  unfold _rule_vars. destruct (decide (1 <= length dom)); [|done].
  by destruct (decide (length dom = 1)).
Qed.

Lemma assert_just_one_lists ls h :
  exists h', assert_just_one (VList <$> ls) h = Ok tt h'.
Proof.
  revert h. induction ls as [|l ls IH]; intros h; simpl.
  - by eexists.
  - unfold bind, modify. apply IH.
Qed.

Lemma rule_table_values states chars_plus name dom :
  2 < length dom ->
  exists ls, (snd <$> map_to_list (rule_table_of states chars_plus name dom)) = VList <$> ls.
Proof.
  intros Hd.
  assert (Hall : Forall (fun v => exists l, v = VList l)
                   (snd <$> map_to_list (rule_table_of states chars_plus name dom))).
  { apply list.Forall_forall. intros v Hv.
    apply list_elem_of_fmap in Hv as ([k v'] & -> & Hin). simpl.
    apply elem_of_map_to_list in Hin. unfold rule_table_of in Hin.
    rewrite (foldl_insert_lookup (rule_value name dom)) in Hin.
    destruct (decide (k ∈ product states chars_plus)); [|done].
    injection Hin as <-. unfold rule_value.
    rewrite decide_False, decide_True by lia. by eexists. }
  induction Hall as [|v vs [l ->] _ [ls ->]].
  - by exists [].
  - by exists (l :: ls).
Qed.

Lemma base_constraints_loop_total {E : Type} pairs (w : World E) :
  Forall (fun p : list nat * rule_table =>
            2 < length p.1 -> exists ls, (snd <$> map_to_list p.2) = VList <$> ls) pairs ->
  exists w', base_constraints_loop pairs w = Ok tt w'.
Proof.
  intros Hall. revert w. induction Hall as [|[domain rules] pairs Hp _ IH]; intros w; simpl.
  - by eexists.
  - simpl in Hp. unfold bind.
    destruct (decide (length domain < 2)); [apply IH|].
    destruct (decide (length domain = 2)); [apply IH|].
    destruct Hp as [ls Hls]; [lia|]. rewrite Hls.
    unfold on_helper, zoom.
    destruct (assert_just_one_lists ls (helper w)) as [h' ->]. apply IH.
Qed.

(** X1.  Constructing the solver returns exactly when the environment has
    at least one direction and at least one state is asked for; otherwise
    the [assert len(to_domain) >= 1] of [_rule_vars] fails and construction
    raises [AssertionError].  No other outcome exists: the base constraints
    are always asserted without error. *)
Theorem construction_succeeds_iff {E : Type} (env : AlgorithmicEnv E) (n : nat) (e0 : E) :
  let dirs_n := (action_space env).1.1 in
  (1 <= dirs_n /\ 1 <= n <-> exists w, AlgorithmicSolver_init env n e0 = Ok tt w) /\
  (dirs_n = 0 \/ n = 0 <-> exists w, AlgorithmicSolver_init env n e0 = Raise AssertionError w).
Proof.
  simpl.
  assert (Hcases : (1 <= (action_space env).1.1 /\ 1 <= n /\
                    exists w, AlgorithmicSolver_init env n e0 = Ok tt w) \/
                   (((action_space env).1.1 = 0 \/ n = 0) /\
                    exists w, AlgorithmicSolver_init env n e0 = Raise AssertionError w)).
  { set (r := AlgorithmicSolver_init env n e0).
    pose proof (eq_refl r) as Hr. unfold r at 2 in Hr. clearbody r.
    unfold AlgorithmicSolver_init, BoolSatHelper_init in Hr.
    destruct (action_space env) as [[dirs_n wm] nc]. simpl in *.
    unfold bind at 1 in Hr.
    set (l0 := if decide (dirs_n = 2) then [] else [WarnDirections dirs_n]).
    assert (Hl0 : (if decide (dirs_n = 2) then ret tt else logging (WarnDirections dirs_n)) []
                  = Ok tt l0).
    { unfold l0. by destruct (decide (dirs_n = 2)). }
    rewrite Hl0 in Hr. clearbody l0. clear Hl0.
    unfold bind at 1 in Hr. rewrite rule_vars_eq, length_seq in Hr.
    destruct (decide (1 <= dirs_n)) as [Hd|Hd]; [|right; split; [lia|by eexists]].
    unfold bind at 1 in Hr. rewrite rule_vars_eq, length_seq in Hr.
    rewrite decide_True in Hr by lia.
    unfold bind at 1 in Hr. rewrite rule_vars_eq, length_seq in Hr.
    destruct (decide (1 <= n)) as [Hn|Hn]; [|right; split; [lia|by eexists]].
    left. split; [done|]. split; [done|]. unfold ret at 1 in Hr.
    unfold add_base_constraints in Hr. unfold bind at 1 in Hr.
    unfold on_helper at 1, zoom, get in Hr.
    cbn [helper direction_rules write_rules state_rules] in Hr.
    match type of Hr with
    | r = base_constraints_loop ?ps ?w0 =>
        destruct (base_constraints_loop_total ps w0) as [w' Hw']
    end.
    { repeat apply Forall_cons_2; [..|apply Forall_nil_2]; cbn [fst snd]; intros Hlen;
        apply rule_table_values; done. }
    exists w'. by rewrite Hr. }
  destruct Hcases as [(Hd & Hn & w & Hw)|(Hz & w & Hw)].
  - split; split.
    + eauto.
    + done.
    + lia.
    + intros [w' Hw']. by rewrite Hw in Hw'.
  - split; split.
    + lia.
    + intros [w' Hw']. by rewrite Hw in Hw'.
    + eauto.
    + done.
Qed.


(** ** How a lookup can fail *)

Lemma lookup_list_cases l i h :
  match lookup_list l i h with
  | Ok _ h' => h' = h
  | Raise e h' => h' = h /\ e <> KeyError
  | NoFuel => False
  end.
Proof.
  revert i. induction l as [|x l IH]; intros i; simpl; [done|].
  unfold bind, get_py_value. destruct (model (solver h)) as [a|]; [|done].
  destruct (eval a x); [done|]. apply IH.
Qed.

(** A lookup either returns, having recorded one literal, or raises with the
    helper untouched; the exception is [KeyError] exactly when the key is
    missing. *)
Lemma lookup_cases rules obs state buff h :
  match _lookup rules obs state buff h with
  | Ok _ h' => is_Some (rules h !! (state, obs)) /\ exists f, h' = add_dirty buff f h
  | Raise e h' => h' = h /\ (e = KeyError <-> rules h !! (state, obs) = None)
  | NoFuel => False
  end.
Proof.
  unfold _lookup, bind, get.
  destruct (rules h !! (state, obs)) as [thing|]; [|done].
  destruct thing as [|f|l].
  - done.
  - unfold get_py_value. destruct (model (solver h)) as [a|]; [|done].
    unfold modify, ret. split; [done|]. by eexists.
  - pose proof (lookup_list_cases l 0 h) as Hl.
    destruct (lookup_list l 0 h) as [rf h'|e h'|]; [|by destruct Hl as [-> ?]|done].
    subst h'. unfold modify, ret. split; [done|]. by eexists.
Qed.

(** [get_action] is its two lookups run from the helper with the buffer
    flushed into the provenance set. *)
Lemma get_action_unfold obs state h :
  get_action obs state h =
    (dirno <- _lookup direction_rules obs state true;;
     writeno <- _lookup write_rules obs state false;;
     ret (write_action (n_chars h) dirno writeno))
      (set_dirty (dirty_variables h ∪ dirty_buffer h) ∅ h).
Proof.
  unfold get_action. unfold bind at 1. unfold get at 1. unfold bind at 1.
  destruct (decide (dirty_buffer h = ∅)) as [Hb|Hb]; simpl; [|done].
  unfold ret at 1. f_equal.
  destruct h; simpl in *. unfold set_dirty; simpl. subst. f_equal. set_solver.
Qed.

Lemma table_in_range dirs_n h name obs state :
  built dirs_n h ->
  is_Some (table h name !! (state, obs)) <-> state < n_states h /\ obs < n_chars h + 1.
Proof.
  intros Hb. rewrite (table_lookup_built dirs_n) by done.
  destruct (decide (state < n_states h /\ obs < n_chars h + 1)).
  - split; [done|]. intros _. by eexists.
  - split; [by intros [? ?]|done].
Qed.

Lemma table_out_of_range dirs_n h name obs state :
  built dirs_n h ->
  table h name !! (state, obs) = None <-> ~ (state < n_states h /\ obs < n_chars h + 1).
Proof.
  intros Hb. rewrite <- (table_in_range dirs_n h name) by done.
  rewrite eq_None_not_Some. done.
Qed.

(** X2.  On a constructed helper, [get_action] raises [KeyError] exactly
    when the state is not below [n_states] or the observation is above
    [n_chars]; [get_state] does so under the same condition unless there is
    a single state, in which case it never looks anything up. *)
Theorem key_error_out_of_range (dirs_n : nat) (h : BoolSatHelper) (obs state : nat) :
  built dirs_n h ->
  let in_range := state < n_states h /\ obs < n_chars h + 1 in
  ((exists h', get_action obs state h = Raise KeyError h') <-> ~ in_range) /\
  ((exists h', get_state obs state h = Raise KeyError h') <-> n_states h <> 1 /\ ~ in_range).
Proof.
  intros Hb. cbv zeta. split.
  - rewrite get_action_unfold.
    set (h1 := set_dirty (dirty_variables h ∪ dirty_buffer h) ∅ h).
    unfold bind at 1.
    pose proof (lookup_cases direction_rules obs state true h1) as Hd.
    destruct (_lookup direction_rules obs state true h1) as [dirno h2|e h2|]; [| |done].
    + destruct Hd as [Hsome [f ->]].
      apply (table_in_range dirs_n h dir_rule) in Hsome; [|done].
      unfold bind at 1.
      pose proof (lookup_cases write_rules obs state false (add_dirty true f h1)) as Hw.
      destruct (_lookup write_rules obs state false (add_dirty true f h1)) as [w h3|e h3|];
        [| |done].
      * split; [by intros [? ?]|done].
      * destruct Hw as [-> He]. split; [|done]. intros [h' [= -> _]].
        destruct He as [He _]. specialize (He eq_refl).
        by apply (table_out_of_range dirs_n h write_rule) in He.
    + destruct Hd as [-> He]. rewrite <- (table_out_of_range dirs_n h dir_rule) by done.
      split.
      * intros [h' [= -> _]]. by apply He.
      * intros Hnone. apply He in Hnone as ->. by eexists.
  - unfold get_state, bind, get. destruct (decide (n_states h = 1)) as [Hn|Hn].
    + split; [by intros [? ?]|]. by intros [? _].
    + pose proof (lookup_cases state_rules obs state true h) as Hs.
      destruct (_lookup state_rules obs state true h) as [st h2|e h2|]; [| |done].
      * destruct Hs as [Hsome _].
        apply (table_in_range dirs_n h state_rule) in Hsome; [|done].
        split; [by intros [? ?]|]. by intros [_ ?].
      * destruct Hs as [-> He]. rewrite <- (table_out_of_range dirs_n h state_rule) by done.
        split.
        -- intros [h' [= -> _]]. split; [done|]. by apply He.
        -- intros [_ Hnone]. apply He in Hnone as ->. by eexists.
Qed.

Lemma key_error_out_of_range_witness :
  built 3 wide_helper /\
  (exists h', get_action 3 0 wide_helper = Raise KeyError h') /\
  ~ (exists h', get_state 3 0 wide_helper = Raise KeyError h').
Proof.
  assert (Hb : built 3 wide_helper) by (intros []; vm_compute; reflexivity).
  destruct (key_error_out_of_range 3 wide_helper 3 0 Hb) as [Ha Hs].
  split; [exact Hb|]. split.
  - apply Ha. vm_compute. lia.
  - intros H. apply Hs in H as [H _]. by apply H.
Defined.

(** ** Decoded values stay inside the tables *)

Lemma decode_in_range dirs_n a h name obs state :
  built dirs_n h ->
  state < n_states h -> obs < n_chars h + 1 ->
  2 <= domain_size dirs_n h name ->
  group_constrained dirs_n h a (name, obs, state) ->
  exists r f, decode_at a (table h name) obs state = Some (r, f) /\
              r < domain_size dirs_n h name.
Proof.
  intros Hb Hs Hc Hd Hg. unfold decode_at.
  rewrite (table_lookup_built dirs_n) by done. rewrite decide_True by done. simpl.
  unfold group_constrained in Hg. simpl in Hg.
  destruct (decide (domain_size dirs_n h name = 2)) as [H2|H2].
  - simpl. eexists _, _. split; [done|]. rewrite H2.
    destruct (a _); lia.
  - rewrite decide_True by lia. simpl.
    destruct (exactly_one_first_true a _ (Hg ltac:(lia))) as (i & f & Hi & _ & _ & Hft).
    exists i, f. split; [done|].
    rewrite members_lookup in Hi. by destruct (decide (i < domain_size dirs_n h name)).
Qed.

(** X3.  Under a model that satisfies the [ExactlyOne] constraints, with at
    least two directions and one character, [get_action] and [get_state]
    return on every state and observation of the tables; the direction is
    one of the environment's, the write flag is 0 or 1, the character to
    write is a valid character even when nothing is written, and the next
    state is again a state of the tables. *)
Theorem controller_stays_in_range (dirs_n : nat) (a : assignment) (h : BoolSatHelper)
    (obs state : nat) :
  built dirs_n h ->
  model (solver h) = Some a ->
  2 <= dirs_n -> 1 <= n_chars h ->
  (forall name s c, s < n_states h -> c < n_chars h + 1 ->
                    group_constrained dirs_n h a (name, c, s)) ->
  state < n_states h -> obs < n_chars h + 1 ->
  exists act st h1 h2,
    get_action obs state h = Ok act h1 /\
    get_state obs state h1 = Ok st h2 /\
    act.1.1 < dirs_n /\ act.1.2 <= 1 /\
    (0 <= act.2 < Z.of_nat (n_chars h))%Z /\
    st < n_states h.
Proof.
  intros Hb Hmodel Hdirs Hchars Hg Hs Hc.
  destruct (decode_in_range dirs_n a h dir_rule obs state Hb Hs Hc) as (d & df & Hd & Hdlt);
    [done|by apply Hg|].
  destruct (decode_in_range dirs_n a h write_rule obs state Hb Hs Hc) as (w & wf & Hw & Hwlt);
    [simpl; lia|by apply Hg|].
  simpl in Hd, Hw, Hdlt, Hwlt.
  set (h1 := set_dirty (dirty_variables h ∪ dirty_buffer h ∪ {[wf]}) {[df]} h).
  assert (Hact : get_action obs state h = Ok (write_action (n_chars h) d w) h1).
  { apply (get_action_Ok a); [done|]. by exists d, df, w, wf. }
  assert (Hst : exists st h2, get_state obs state h1 = Ok st h2 /\ st < n_states h).
  { destruct (decide (n_states h = 1)) as [Hn|Hn].
    - exists 0, h1. split; [|lia]. apply (get_state_Ok a); [done|]. by left.
    - destruct (decode_in_range dirs_n a h state_rule obs state Hb Hs Hc)
        as (s & sf & Hsd & Hslt); [simpl; lia|by apply Hg|].
      simpl in Hsd, Hslt. eexists s, _. split; [|done].
      apply (get_state_Ok a); [done|]. right. split; [done|]. by exists sf. }
  destruct Hst as (st & h2 & Hst & Hlt).
  exists (write_action (n_chars h) d w), st, h1, h2.
  split; [done|]. split; [done|]. unfold write_action. simpl.
  split; [done|]. split; [destruct (decide (w = n_chars h)); lia|]. split; [lia|done].
Qed.

Lemma controller_stays_in_range_witness :
  exists act st h1 h2,
    get_action 2 0 wide_helper = Ok act h1 /\
    get_state 2 0 h1 = Ok st h2 /\
    act.1.1 < 3 /\ act.1.2 <= 1 /\
    (0 <= act.2 < Z.of_nat (n_chars wide_helper))%Z /\
    st < n_states wide_helper.
Proof.
  assert (Hb : built 3 wide_helper) by (intros []; vm_compute; reflexivity).
  apply (controller_stays_in_range 3 wide_model wide_helper 2 0 Hb eq_refl).
  - lia.
  - vm_compute. lia.
  - intros name s c Hs Hc. change (n_states wide_helper) with 1 in Hs.
    change (n_chars wide_helper + 1) with 3 in Hc.
    assert (s = 0) as -> by lia.
    destruct name; (destruct c as [|[|[|c]]]; [..|lia]); intros Hd; vm_compute; try reflexivity;
      vm_compute in Hd; lia.
  - vm_compute. lia.
  - vm_compute. lia.
Defined.

(** X4.  A direction or write rule whose domain has a single value (one
    direction, or no character) is stored as [None] by [_rule_vars], and
    [get_action] then raises on every state and observation of the tables:
    construction only warns, but the helper cannot produce an action. *)
Theorem one_value_rule_unusable (dirs_n : nat) (h : BoolSatHelper) (obs state : nat) :
  built dirs_n h ->
  state < n_states h -> obs < n_chars h + 1 ->
  dirs_n <= 1 \/ n_chars h = 0 ->
  exists e h', get_action obs state h = Raise e h' /\ e <> KeyError.
Proof.
  intros Hb Hs Hc Hone. rewrite get_action_unfold.
  set (h1 := set_dirty (dirty_variables h ∪ dirty_buffer h) ∅ h).
  assert (Hnone : forall name h2,
            table h2 name = table h name ->
            domain_size dirs_n h name <= 1 ->
            forall buff, exists e,
              _lookup (fun h => table h name) obs state buff h2 = Raise e h2 /\ e <> KeyError).
  { intros name h2 Ht Hd buff. unfold _lookup, bind, get. rewrite Ht.
    rewrite (table_lookup_built dirs_n) by done. rewrite decide_True by done.
    simpl. rewrite !decide_False by lia. by exists SolverError. }
  unfold bind at 1.
  pose proof (lookup_cases direction_rules obs state true h1) as Hd.
  destruct (_lookup direction_rules obs state true h1) as [dirno h2|e h2|] eqn:Hdir; [| |done].
  - destruct Hd as [_ [f ->]].
    destruct (decide (dirs_n <= 1)) as [Hle|Hgt].
    { destruct (Hnone dir_rule h1 eq_refl Hle true) as (e & He & _).
      change (fun h => table h dir_rule) with direction_rules in He. congruence. }
    destruct (Hnone write_rule (add_dirty true f h1) eq_refl ltac:(simpl; lia) false)
      as (e & He & Hne).
    change (fun h => table h write_rule) with write_rules in He.
    unfold bind at 1. rewrite He. eauto.
  - destruct Hd as [-> He]. exists e, h1. split; [done|]. intros ->.
    destruct He as [He _]. specialize (He eq_refl).
    apply (table_out_of_range dirs_n h dir_rule) in He; [|done]. by apply He.
Qed.

Lemma one_value_rule_unusable_witness :
  model (solver (helper (first_candidate one_way_env 1))) = Some (assignment_of []) /\
  exists e h',
    get_action 0 0 (helper (first_candidate one_way_env 1)) = Raise e h' /\ e <> KeyError.
Proof.
  split; [vm_compute; reflexivity|].
  apply (one_value_rule_unusable 1 (helper (first_candidate one_way_env 1)) 0 0).
  - intros []; vm_compute; reflexivity.
  - vm_compute. lia.
  - vm_compute. lia.
  - left. lia.
Defined.

(** X5.  Asking again for the action of the same observation and state
    returns the same action; the second call moves the buffered direction
    literal into the provenance set, and from then on further calls leave
    the helper unchanged.  Asking again for the next state returns the
    same state and leaves the helper unchanged. *)
Theorem reads_are_repeatable (a : assignment) (h : BoolSatHelper) (obs state : nat) :
  model (solver h) = Some a ->
  (forall act h1, get_action obs state h = Ok act h1 ->
     exists h2,
       get_action obs state h1 = Ok act h2 /\
       dirty_variables h2 = dirty_variables h1 ∪ dirty_buffer h1 /\
       dirty_buffer h2 = dirty_buffer h1 /\
       get_action obs state h2 = Ok act h2) /\
  (forall st h1, get_state obs state h = Ok st h1 ->
     get_state obs state h1 = Ok st h1).
Proof.
  intros Hmodel. split.
  - intros act h1 (d & df & w & wf & Hd & Hw & -> & ->)%(get_action_Ok a); [|done].
    set (h1 := set_dirty (dirty_variables h ∪ dirty_buffer h ∪ {[wf]}) {[df]} h).
    set (h2 := set_dirty (dirty_variables h1 ∪ dirty_buffer h1) {[df]} h).
    exists h2. split; [|split; [done|split; [done|]]].
    + apply (get_action_Ok a); [done|]. exists d, df, w, wf.
      split; [done|]. split; [done|]. split; [done|].
      unfold h2, h1, set_dirty. simpl. f_equal. set_solver.
    + apply (get_action_Ok a); [done|]. exists d, df, w, wf.
      split; [done|]. split; [done|]. split; [done|].
      unfold h2, h1, set_dirty. simpl. f_equal. set_solver.
  - intros st h1 [(Hn & -> & ->)|(Hn & f & Hf & ->)]%(get_state_Ok a); [| |done].
    + apply (get_state_Ok a); [done|]. by left.
    + apply (get_state_Ok a); [done|]. right. split; [done|]. exists f. split; [done|].
      unfold set_dirty. simpl. f_equal. set_solver.
Qed.

Lemma reads_are_repeatable_witness :
  exists act h1 h2,
    get_action 0 0 wide_helper = Ok act h1 /\
    get_action 0 0 h1 = Ok act h2 /\
    get_action 0 0 h2 = Ok act h2.
Proof.
  assert (H : exists act h1, get_action 0 0 wide_helper = Ok act h1)
    by (eexists _, _; vm_compute; reflexivity).
  destruct H as (act & h1 & H).
  destruct (reads_are_repeatable wide_model wide_helper 0 0 eq_refl) as [Ha _].
  destruct (Ha act h1 H) as (h2 & H2 & _ & _ & H3).
  exists act, h1, h2. exact (conj H (conj H2 H3)).
Defined.

(** X6.  [resolve] raises nothing but [UnsatException], and leaves the model
    of the backend's answer (none when it raises).  A second [resolve]
    right after it, with any backend, asserts nothing and only replaces the
    model by the new answer: a nogood is never asserted twice. *)
Theorem resolve_twice (backend backend' : list formula -> option assignment)
    (h : BoolSatHelper) :
  let again h1 :=
    match resolve backend' h1 with
    | Ok _ h2 | Raise _ h2 => h2 = with_model (backend' (assertions (solver h1))) h1
    | NoFuel => False
    end in
  match resolve backend h with
  | Ok _ h1 =>
      is_Some (model (solver h1)) /\ model (solver h1) = backend (assertions (solver h1)) /\
      again h1
  | Raise e h1 =>
      e = UnsatException /\ model (solver h1) = None /\
      backend (assertions (solver h1)) = None /\ again h1
  | NoFuel => False
  end.
Proof.
  assert (Hfix : forall m, resolved (with_model m (resolved h)) = with_model m (resolved h)).
  { intros m. unfold resolved at 1. simpl. done. }
  assert (Hagain : forall m,
    match resolve backend' (with_model m (resolved h)) with
    | Ok _ h2 | Raise _ h2 =>
        h2 = with_model (backend' (assertions (solver (with_model m (resolved h)))))
                        (with_model m (resolved h))
    | NoFuel => False
    end).
  { intros m. rewrite resolve_eq, Hfix.
    by destruct (backend' (assertions (solver (with_model m (resolved h))))). }
  cbv zeta. rewrite resolve_eq.
  destruct (backend (assertions (solver (resolved h)))) as [a|] eqn:Hback.
  - split; [by eexists|]. split; [|apply Hagain].
    change (assertions (solver (with_model (Some a) (resolved h))))
      with (assertions (solver (resolved h))).
    by rewrite Hback.
  - split; [done|]. split; [done|]. split; [|apply Hagain].
    change (assertions (solver (with_model None (resolved h))))
      with (assertions (solver (resolved h))).
    exact Hback.
Qed.


(** ** The frame of an episode *)

(** X7.  An episode that returns has not touched the solver, the tables or
    the log, and has removed nothing from the provenance set: what was in
    the provenance set or the buffer before is in the provenance set after.
    Both sets are non-empty afterwards, and every literal the episode added
    holds under the candidate and mentions only symbols of the tables. *)
Theorem run_episode_frame {E : Type} (env : AlgorithmicEnv E) (a : assignment) (fuel : nat)
    (w w' : World E) (sr : bool * Q) :
  model (solver (helper w)) = Some a ->
  run_episode env fuel w = Ok sr w' ->
  solver (helper w') = solver (helper w) /\
  same_static (helper w) (helper w') /\
  log w' = log w /\
  dirty_variables (helper w) ∪ dirty_buffer (helper w) ⊆ dirty_variables (helper w') /\
  dirty_variables (helper w') <> ∅ /\
  dirty_buffer (helper w') <> ∅ /\
  (forall l, l ∈ dirty_variables (helper w') ∪ dirty_buffer (helper w') ->
     l ∈ dirty_variables (helper w) ∪ dirty_buffer (helper w) \/ good_literal a (helper w) l).
Proof.
  intros Hmodel Hrun.
  destruct (run_episode_Ok env a _ _ _ _ Hmodel Hrun) as (ds & d & Htr & Hh & Hlog).
  rewrite Hh. cbn [solver dirty_variables dirty_buffer set_dirty].
  split; [done|]. split; [done|]. split; [done|]. split; [set_solver|].
  split. { unfold writes. rewrite fmap_app. set_solver. }
  split. { unfold pending. set_solver. }
  apply episode_trace_steps in Htr.
  assert (Hsteps : forall x, x ∈ ds ++ [d] ->
            exists obs state, decide_step a (helper w) obs state = Some x).
  { intros x Hx. rewrite Forall_forall in Htr. by apply Htr, list_elem_of_In. }
  intros l Hl.
  assert (Hcases : l ∈ dirty_variables (helper w) ∪ dirty_buffer (helper w) \/
                   (exists d', d' ∈ ds ++ [d] /\ l = sd_write d') \/
                   (exists d', d' ∈ ds ++ [d] /\ l ∈ pending d')).
  { apply elem_of_union in Hl as [Hl|Hl].
    - apply elem_of_union in Hl as [Hl|Hl].
      + apply elem_of_union in Hl as [Hl|Hl]; [by left|].
        right. left.
        apply elem_of_list_to_set, list_elem_of_fmap in Hl as (d' & -> & Hd'). eauto.
      + right. right. apply elem_of_union_list in Hl as (X & HX & Hl).
        apply list_elem_of_fmap in HX as (d' & -> & Hd').
        exists d'. split; [|done]. apply elem_of_app. by left.
    - right. right. exists d. split; [|done]. apply elem_of_app. right. by left. }
  destruct Hcases as [?|[(d' & Hd' & ->)|(d' & Hd' & Hl')]]; [by left|right..].
  - destruct (Hsteps d' Hd') as (o & s & Hstep). by apply decide_step_literals in Hstep as [? _].
  - destruct (Hsteps d' Hd') as (o & s & Hstep).
    apply decide_step_literals in Hstep as [_ Hp]. by apply Hp.
Qed.

Lemma run_episode_frame_witness :
  exists sr w',
    run_episode three_step_env 5 three_step_world = Ok sr w' /\
    solver (helper w') = solver (helper three_step_world) /\
    log w' = log three_step_world /\
    dirty_variables (helper w') <> ∅ /\
    dirty_buffer (helper w') <> ∅.
Proof.
  assert (H : exists sr w', run_episode three_step_env 5 three_step_world = Ok sr w')
    by (eexists _, _; vm_compute; reflexivity).
  destruct H as (sr & w' & H).
  destruct (run_episode_frame three_step_env (assignment_of []) 5 three_step_world w' sr
              eq_refl H) as (Hs & _ & Hl & _ & Hv & Hb & _).
  exists sr, w'. exact (conj H (conj Hs (conj Hl (conj Hv Hb)))).
Defined.

(** ** What [solve] adds to the solver *)

Lemma same_static_resolved m h : same_static h (with_model m (resolved h)).
Proof.
  unfold resolved. destruct (decide (dirty_variables h = ∅)); repeat split; by intros [].
Qed.

Lemma same_static_trans h0 h1 h2 :
  same_static h0 h1 -> same_static h1 h2 -> same_static h0 h2.
Proof.
  intros (? & ? & Ht) (? & ? & Ht'). repeat split; [congruence|congruence|].
  intros name. by rewrite Ht', Ht.
Qed.

Lemma try_model_keeps_solver {E : Type} (env : AlgorithmicEnv E) efuel a (w : World E) b w' :
  model (solver (helper w)) = Some a ->
  clean w ->
  try_model env efuel w = Ok b w' ->
  solver (helper w') = solver (helper w) /\ same_static (helper w) (helper w').
Proof.
  intros Hmodel Hclean H.
  destruct (try_model_effect env max_eps efuel a w b w' Hmodel Hclean H) as (D & B & -> & _).
  done.
Qed.

(** X8.  Whatever [solve] returns, the tables are unchanged and the
    assertions are those it started with followed by nogoods of non-empty
    provenance sets, at most one per iteration: with a budget of [m]
    iterations, started at iteration [i], at most [m - i] nogoods. *)
Theorem solve_adds_only_nogoods {E : Type} (backend : list formula -> option assignment)
    (env : AlgorithmicEnv E) (efuel fuel : nat) (maxiters : option nat) (i : nat)
    (w w' : World E) (b : bool) :
  solve_loop backend env efuel fuel maxiters i w = Ok b w' ->
  same_static (helper w) (helper w') /\
  exists ngs : list (gset formula),
    assertions (solver (helper w')) = assertions (solver (helper w)) ++ (nogood_of <$> ngs) /\
    Forall (fun D => D <> ∅) ngs /\
    (forall m, maxiters = Some m -> length ngs <= m - i).
Proof.
  revert i w. induction fuel as [|fuel IH]; intros i w H.
  - destruct (below i maxiters) eqn:Hb; [simpl in H; by rewrite Hb in H|].
    rewrite solve_loop_done in H by done. injection H as _ <-.
    split; [done|]. exists []. simpl. rewrite app_nil_r.
    repeat split; [constructor|intros; lia].
  - destruct (below i maxiters) eqn:Hb.
    2:{ rewrite solve_loop_done in H by done. injection H as _ <-.
        split; [done|]. exists []. simpl. rewrite app_nil_r.
        repeat split; [constructor|intros; lia]. }
    rewrite solve_loop_step in H by done.
    assert (Hres : exists ng : list (gset formula),
              assertions (solver (resolved (helper w)))
              = assertions (solver (helper w)) ++ (nogood_of <$> ng) /\
              Forall (fun D => D <> ∅) ng /\ length ng <= 1).
    { rewrite assertions_resolved.
      destruct (decide (dirty_variables (helper w) = ∅)) as [He|Hne].
      - exists []. simpl. rewrite app_nil_r. repeat split; [constructor|lia].
      - exists [dirty_variables (helper w)]. repeat split; [|simpl; lia].
        by apply Forall_singleton. }
    destruct Hres as (ng & Hng & Hne & Hlen).
    assert (Hbudget : forall m, maxiters = Some m -> i < m).
    { intros m ->. simpl in Hb. by apply Nat.ltb_lt in Hb. }
    destruct (backend (assertions (solver (resolved (helper w))))) as [a|] eqn:Hback.
    + destruct (try_model env efuel (after_resolve (Some a) w)) as [[] w2|e w2|] eqn:Htry;
        [| |done|done].
      * injection H as _ <-.
        apply (try_model_keeps_solver env efuel a) in Htry as [Hsol Hstat]; [|done|done].
        split; [exact (same_static_trans _ _ _ (same_static_resolved _ _) Hstat)|].
        exists ng. cbn [helper logged]. rewrite Hsol.
        split; [exact Hng|]. split; [done|].
        intros m Hm. specialize (Hbudget m Hm). lia.
      * apply (try_model_keeps_solver env efuel a) in Htry as [Hsol Hstat]; [|done|done].
        apply IH in H as (Hstat' & ngs & Hass & Hall & Hm).
        rewrite helper_progress in Hass, Hstat'.
        split.
        { exact (same_static_trans _ _ _ (same_static_resolved _ _)
                   (same_static_trans _ _ _ Hstat Hstat')). }
        exists (ng ++ ngs). rewrite Hass, Hsol. cbn [after_resolve helper with_model
          set_solver_of solver assertions]. rewrite Hng, fmap_app, app_assoc.
        split; [done|]. split; [by apply Forall_app|]. rewrite length_app.
        intros m Hmx. specialize (Hm m Hmx). specialize (Hbudget m Hmx). lia.
    + injection H as _ <-. split; [apply same_static_resolved|].
      exists ng. cbn [helper logged after_resolve].
      split; [exact Hng|]. split; [done|].
      intros m Hm. specialize (Hbudget m Hm). lia.
Qed.

Lemma solve_adds_only_nogoods_witness :
  exists w' (ngs : list (gset formula)),
    solve_loop (backend_for failing_env 1) failing_env 5 5 (Some 2) 0 (fresh_world failing_env 1)
      = Ok false w' /\
    assertions (solver (helper w'))
    = assertions (solver (helper (fresh_world failing_env 1))) ++ (nogood_of <$> ngs) /\
    length ngs <= 2.
Proof.
  assert (H : exists w',
            solve_loop (backend_for failing_env 1) failing_env 5 5 (Some 2) 0
                       (fresh_world failing_env 1) = Ok false w')
    by (eexists; vm_compute; reflexivity).
  destruct H as (w' & H).
  destruct (solve_adds_only_nogoods _ _ _ _ _ _ _ _ _ H) as (_ & ngs & Hass & _ & Hm).
  exists w', ngs. split; [exact H|]. split; [exact Hass|].
  exact (Hm 2 eq_refl).
Defined.

(** ** A successful run certifies its controller *)

(** X9.  When [solve] returns [True] under a sound backend, the model it
    leaves in the solver satisfies every assertion, base constraints and
    nogoods alike, and is the model under which the last evaluation ran: an
    evaluation from clean sets whose last episode reached the reward
    threshold and left the helper and environment [solve] returns with. *)
Theorem solve_success_certified {E : Type} (backend : list formula -> option assignment)
    (env : AlgorithmicEnv E) (efuel fuel : nat) (maxiters : option nat) (i : nat)
    (w w' : World E) :
  sound backend ->
  solve_loop backend env efuel fuel maxiters i w = Ok true w' ->
  exists a w1 rs sr wl,
    model (solver (helper w')) = Some a /\
    satisfies a (assertions (solver (helper w'))) = true /\
    solver (helper w1) = solver (helper w') /\ clean w1 /\
    evaluation env efuel w1 rs sr wl /\
    qualifies env sr.2 = true /\
    helper w' = helper wl /\ env_st w' = env_st wl.
Proof.
  intros Hsound. revert i w. induction fuel as [|fuel IH]; intros i w H.
  - destruct (below i maxiters) eqn:Hb; [simpl in H; by rewrite Hb in H|].
    by rewrite solve_loop_done in H by done.
  - destruct (below i maxiters) eqn:Hb; [|by rewrite solve_loop_done in H by done].
    rewrite solve_loop_step in H by done.
    destruct (backend (assertions (solver (resolved (helper w))))) as [a|] eqn:Hback; [|done].
    destruct (try_model env efuel (after_resolve (Some a) w)) as [[] w2|e w2|] eqn:Htry;
      [| |done|done].
    + injection H as <-.
      pose proof Htry as Htry'.
      apply (try_model_keeps_solver env efuel a) in Htry' as [Hsol _]; [|done|done].
      apply try_model_with_Ok in Htry as (rs & sr & wl & Hev & _ & Hq & Hh & He & _).
      rewrite <- Hq in Hh. rewrite decide_False in Hh by (by intros [_ ?]).
      exists a, (after_resolve (Some a) w), rs, sr, wl.
      cbn [helper logged env_st]. rewrite Hsol.
      split; [done|]. split; [by apply Hsound|]. split; [done|]. split; [done|].
      split; [done|]. split; [done|]. done.
    + by apply IH in H.
Qed.

Lemma solve_success_certified_witness :
  exists w' a (sr : bool * Q),
    solve_loop (backend_for writing_env 1) writing_env 5 5 None 0 (fresh_world writing_env 1)
      = Ok true w' /\
    model (solver (helper w')) = Some a /\
    satisfies a (assertions (solver (helper w'))) = true /\
    qualifies writing_env sr.2 = true.
Proof.
  assert (H : exists w',
            solve_loop (backend_for writing_env 1) writing_env 5 5 None 0
                       (fresh_world writing_env 1) = Ok true w')
    by (eexists; vm_compute; reflexivity).
  destruct H as (w' & H).
  destruct (solve_success_certified _ _ _ _ _ _ _ _ (enum_backend_sound _) H)
    as (a & w1 & rs & sr & wl & Hm & Hs & _ & _ & _ & Hq & _).
  exists w', a, sr. exact (conj H (conj Hm (conj Hs Hq))).
Defined.


(** ** The runner never leaves the tables *)

Lemma step_in_range dirs_n a h obs state :
  usable dirs_n a h ->
  state < n_states h -> obs < n_chars h + 1 ->
  exists d, decide_step a h obs state = Some d /\
    sd_next d < n_states h /\
    (sd_action d).1.1 < dirs_n /\ (sd_action d).1.2 <= 1 /\
    (0 <= (sd_action d).2 < Z.of_nat (n_chars h))%Z /\
    get_action obs state h
      = Ok (sd_action d)
           (set_dirty (dirty_variables h ∪ dirty_buffer h ∪ {[sd_write d]}) {[sd_dir d]} h) /\
    get_state obs state
        (set_dirty (dirty_variables h ∪ dirty_buffer h ∪ {[sd_write d]}) {[sd_dir d]} h)
      = Ok (sd_next d)
           (set_dirty (dirty_variables h ∪ dirty_buffer h ∪ {[sd_write d]}) (pending d) h).
Proof.
  intros (Hb & Hmodel & Hdirs & Hchars & _ & Hg) Hs Hc.
  destruct (decode_in_range dirs_n a h dir_rule obs state Hb Hs Hc) as (d & df & Hd & Hdlt);
    [done|by apply Hg|].
  destruct (decode_in_range dirs_n a h write_rule obs state Hb Hs Hc) as (w & wf & Hw & Hwlt);
    [simpl; lia|by apply Hg|].
  simpl in Hd, Hw, Hdlt, Hwlt.
  assert (Hst : exists s sf,
            (if decide (n_states h = 1) then Some (0, None)
             else (fun p : nat * formula => (p.1, Some p.2))
                    <$> decode_at a (state_rules h) obs state) = Some (s, sf) /\
            s < n_states h).
  { destruct (decide (n_states h = 1)) as [Hn|Hn].
    - exists 0, None. split; [done|lia].
    - destruct (decode_in_range dirs_n a h state_rule obs state Hb Hs Hc)
        as (s & sf & Hsd & Hslt); [simpl; lia|by apply Hg|].
      simpl in Hsd, Hslt. rewrite Hsd. by exists s, (Some sf). }
  destruct Hst as (s & sf & Hst & Hslt).
  eexists. split.
  { unfold decide_step. rewrite Hd, Hw. simpl. rewrite Hst. simpl. reflexivity. }
  simpl. split; [done|]. split; [done|].
  split; [destruct (decide (w = n_chars h)); lia|]. split; [lia|].
  split.
  - apply (get_action_Ok a); [done|]. by exists d, df, w, wf.
  - apply (get_state_Ok a); [done|]. simpl.
    destruct (decide (n_states h = 1)) as [Hn|Hn].
    + left. injection Hst as <- <-. split; [done|]. split; [done|].
      unfold pending, set_dirty. simpl. f_equal. set_solver.
    + right. split; [done|].
      destruct (decode_at a (state_rules h) obs state) as [[s' sf']|] eqn:Hsd; [|done].
      simpl in Hst. injection Hst as <- <-. exists sf'. split; [done|].
      unfold pending, set_dirty. simpl. f_equal.
Qed.

Lemma episode_step_eq {E : Type} (env : AlgorithmicEnv E) obs state (w : World E) act st h1 h2 :
  get_action obs state (helper w) = Ok act h1 ->
  get_state obs state h1 = Ok st h2 ->
  episode_step env obs state w
  = Ok (st, (step env (env_st w) act).1)
       {| helper := h2; env_st := (step env (env_st w) act).2; log := log w |}.
Proof.
  intros Ha Hs. unfold episode_step, bind, on_helper, zoom, on_env. rewrite Ha. simpl.
  rewrite Hs. simpl. by destruct (step env (env_st w) act).
Qed.

Lemma usable_set_dirty dirs_n a D B h : usable dirs_n a h -> usable dirs_n a (set_dirty D B h).
Proof. intros H. exact H. Qed.

Section Totality.
Context {E : Type}.
Variable env : AlgorithmicEnv E.
Variables (dirs_n : nat) (a : assignment) (h0 : BoolSatHelper).
Hypothesis Husable : usable dirs_n a h0.
Hypothesis Hobs : observes_in_range env (n_chars h0).

Lemma episode_loop_total fuel :
  forall obs state total (w : World E),
    (exists D B, helper w = set_dirty D B h0) ->
    state < n_states h0 -> obs < n_chars h0 + 1 ->
    match episode_loop env fuel obs state total w with
    | Ok _ w' => exists D B, helper w' = set_dirty D B h0
    | Raise _ _ => False
    | NoFuel => True
    end.
Proof using Husable Hobs.
  induction fuel as [|fuel IH]; intros obs state total w (D & B & Hw) Hs Ho; [done|].
  cbn [episode_loop]. unfold bind.
  destruct (step_in_range dirs_n a (helper w) obs state) as (d & _ & Hnext & _ & _ & _ & Ha & Hst).
  { rewrite Hw. by apply usable_set_dirty. }
  { by rewrite Hw. }
  { by rewrite Hw. }
  rewrite (episode_step_eq env _ _ _ _ _ _ _ Ha Hst).
  destruct (step env (env_st w) (sd_action d)) as [[[obs' reward] done] e'] eqn:Hstep.
  cbn [fst snd]. destruct done.
  - unfold ret. rewrite Hw. by eexists _, _.
  - apply IH.
    + rewrite Hw. by eexists _, _.
    + by rewrite Hw in Hnext.
    + destruct Hobs as [_ Hstp]. specialize (Hstp (env_st w) (sd_action d)).
      rewrite Hstep in Hstp. simpl in Hstp. lia.
Qed.

Lemma run_episode_total fuel (w : World E) :
  (exists D B, helper w = set_dirty D B h0) ->
  match run_episode env fuel w with
  | Ok _ w' => exists D B, helper w' = set_dirty D B h0
  | Raise _ _ => False
  | NoFuel => True
  end.
Proof using Husable Hobs.
  intros Hw. unfold run_episode, bind, on_env.
  destruct (reset env (env_st w)) as [obs e] eqn:Hreset.
  apply episode_loop_total.
  - done.
  - destruct Husable as (_ & _ & _ & _ & Hn & _). lia.
  - destruct Hobs as [Hr _]. specialize (Hr (env_st w)). rewrite Hreset in Hr. simpl in Hr. lia.
Qed.

Lemma try_model_loop_total cap efuel tfuel :
  forall l (w : World E),
    (exists D B, helper w = set_dirty D B h0) ->
    match try_model_loop env cap efuel tfuel l w with
    | Ok l' w' =>
        (exists D B, helper w' = set_dirty D B h0) /\
        (is_Some (tl_last l) \/ (tl_i l < cap)%N -> is_Some (tl_last l'))
    | Raise _ _ => False
    | NoFuel => True
    end.
Proof using Husable Hobs.
  induction tfuel as [|tfuel IH]; intros l w Hw.
  - cbn [try_model_loop]. destruct (tl_i l <? cap)%N eqn:Hlt; [done|].
    unfold ret. split; [done|]. intros [?|Hc]; [done|].
    apply N.ltb_ge in Hlt. lia.
  - cbn [try_model_loop]. destruct (tl_i l <? cap)%N eqn:Hlt.
    2:{ unfold ret. split; [done|]. intros [?|Hc]; [done|]. apply N.ltb_ge in Hlt. lia. }
    unfold bind at 1. pose proof (run_episode_total efuel w Hw) as Hrun.
    destruct (run_episode env efuel w) as [[success reward] w1|e w1|]; [|done|done].
    destruct success; cbn [negb].
    + destruct (qualifies env reward).
      * unfold ret. split; [done|]. intros _. by eexists.
      * unfold bind, on_helper, zoom, clear_dirty, modify.
        match goal with
        | |- match try_model_loop _ _ _ _ ?l1 ?w2 with _ => _ end =>
            pose proof (IH l1 w2) as Hrec;
            destruct (try_model_loop env cap efuel tfuel l1 w2) as [l' w'|e w'|]; [|apply Hrec|done]
        end.
        -- destruct Hrec as [HD Hlast].
           { destruct Hrun as (D & B & ->). by eexists _, _. }
           split; [done|]. intros _. apply Hlast. left. by eexists.
        -- destruct Hrun as (D & B & ->). by eexists _, _.
    + unfold ret. split; [done|]. intros _. by eexists.
Qed.

Lemma try_model_total efuel (w : World E) :
  (exists D B, helper w = set_dirty D B h0) ->
  match try_model env efuel w with
  | Ok _ w' => exists D B, helper w' = set_dirty D B h0
  | Raise _ _ => False
  | NoFuel => True
  end.
Proof using Husable Hobs.
  intros Hw. unfold try_model, try_model_with. unfold bind at 1.
  pose proof (try_model_loop_total max_eps efuel efuel
                {| tl_i := 0; tl_goodeps := 0; tl_last := None |} w Hw) as Hloop.
  destruct (try_model_loop env max_eps efuel efuel _ w) as [l w1|e w1|]; [|done|done].
  destruct Hloop as [HD Hlast].
  destruct Hlast as [[success reward] Hl]; [right; reflexivity|].
  rewrite Hl. destruct (qualifies env reward); [done|].
  unfold bind, on_log, zoom, logging, modify, ret.
  destruct (decide (tl_i l = max_eps)); destruct (decide (tl_goodeps l = 0%N)); exact HD.
Qed.
End Totality.

(** ** [solve] raises nothing *)

Lemma built_same_static dirs_n h0 h : same_static h0 h -> built dirs_n h0 -> built dirs_n h.
Proof.
  intros (Hc & Hs & Ht) Hb name. rewrite Ht, Hb.
  destruct name; simpl; by rewrite ?Hc, ?Hs.
Qed.

Lemma usable_of_model dirs_n a h0 h :
  built dirs_n h0 -> based dirs_n h0 ->
  2 <= dirs_n -> 1 <= n_chars h0 -> 1 <= n_states h0 ->
  same_static h0 h ->
  (forall f, f ∈ assertions (solver h0) -> f ∈ assertions (solver h)) ->
  model (solver h) = Some a ->
  satisfies a (assertions (solver h)) = true ->
  usable dirs_n a h.
Proof.
  intros Hb Hbase Hd Hc Hs Hstat Hsub Hmodel Hsat.
  pose proof Hstat as (Hc' & Hs' & Ht).
  split; [by eapply built_same_static|]. split; [done|]. split; [done|].
  split; [lia|]. split; [lia|].
  intros name s c Hsl Hcl. unfold group_constrained. cbn [fst snd].
  assert (Hdeq : domain_size dirs_n h name = domain_size dirs_n h0 name)
    by (destruct name; simpl; congruence).
  rewrite Hdeq. intros Hdom.
  rewrite satisfies_forall in Hsat. apply Hsat, Hsub, Hbase; [lia|lia|done].
Qed.

Section SolveTotality.
Context {E : Type}.
Variable backend : list formula -> option assignment.
Variable env : AlgorithmicEnv E.
Variables (dirs_n : nat) (h0 : BoolSatHelper).
Hypothesis Hsound : sound backend.
Hypothesis Hbuilt : built dirs_n h0.
Hypothesis Hbased : based dirs_n h0.
Hypothesis Hdirs : 2 <= dirs_n.
Hypothesis Hchars : 1 <= n_chars h0.
Hypothesis Hstates : 1 <= n_states h0.
Hypothesis Hobs : observes_in_range env (n_chars h0).

Lemma solve_loop_total efuel fuel maxiters :
  forall i (w : World E),
    same_static h0 (helper w) ->
    (forall f, f ∈ assertions (solver h0) -> f ∈ assertions (solver (helper w))) ->
    match solve_loop backend env efuel fuel maxiters i w with
    | Ok _ _ => True
    | Raise _ _ => False
    | NoFuel => True
    end.
Proof using Hsound Hbuilt Hbased Hdirs Hchars Hstates Hobs.
  induction fuel as [|fuel IH]; intros i w Hstat Hsub.
  - destruct (below i maxiters) eqn:Hb; [simpl; by rewrite Hb|].
    by rewrite solve_loop_done.
  - destruct (below i maxiters) eqn:Hb; [|by rewrite solve_loop_done].
    rewrite solve_loop_step by done.
    destruct (backend (assertions (solver (resolved (helper w))))) as [a|] eqn:Hback; [|done].
    set (w1 := after_resolve (Some a) w).
    assert (Hstat1 : same_static h0 (helper w1))
      by (eapply same_static_trans; [exact Hstat|apply same_static_resolved]).
    assert (Hsub1 : forall f, f ∈ assertions (solver h0) ->
                              f ∈ assertions (solver (helper w1))).
    { intros f Hf. apply (resolved_keeps_assertions (helper w)). by apply Hsub. }
    assert (Hus : usable dirs_n a (helper w1)).
    { apply (usable_of_model dirs_n a h0); try done. by apply Hsound. }
    assert (Hobs1 : observes_in_range env (n_chars (helper w1))).
    { destruct Hstat1 as (-> & _). exact Hobs. }
    pose proof (try_model_total env dirs_n a (helper w1) Hus Hobs1 efuel w1) as Htry.
    destruct (try_model env efuel w1) as [[] w2|e w2|]; [done| |apply Htry|done].
    + destruct Htry as (D & B & Hw2).
      * exists (dirty_variables (helper w1)), (dirty_buffer (helper w1)).
        by destruct (helper w1).
      * apply IH; rewrite helper_progress, Hw2; done.
    + exists (dirty_variables (helper w1)), (dirty_buffer (helper w1)).
      by destruct (helper w1).
Qed.
End SolveTotality.

(** X10.  With a usable helper and an environment whose observations are
    characters or the blank, an episode never raises: at every step the
    state and observation are keys of the tables and every one-hot group
    decodes, so [run_episode] returns unless it is still running when the
    fuel ends. *)
Theorem episode_never_raises {E : Type} (env : AlgorithmicEnv E) (dirs_n : nat)
    (a : assignment) (fuel : nat) (w : World E) :
  usable dirs_n a (helper w) ->
  observes_in_range env (n_chars (helper w)) ->
  (exists sr w', run_episode env fuel w = Ok sr w') \/ run_episode env fuel w = NoFuel.
Proof.
  intros Hus Hobs.
  pose proof (run_episode_total env dirs_n a (helper w) Hus Hobs fuel w) as H.
  destruct (run_episode env fuel w) as [sr w'|e w'|].
  - left. by eexists _, _.
  - exfalso. apply H. exists (dirty_variables (helper w)), (dirty_buffer (helper w)).
    by destruct (helper w).
  - by right.
Qed.

Lemma wide_helper_usable : usable 3 wide_model wide_helper.
Proof.
  split; [intros []; vm_compute; reflexivity|]. split; [reflexivity|].
  split; [lia|]. split; [vm_compute; lia|]. split; [vm_compute; lia|].
  intros name s c Hs Hc. change (n_states wide_helper) with 1 in Hs.
  change (n_chars wide_helper + 1) with 3 in Hc.
  assert (s = 0) as -> by lia.
  destruct name; (destruct c as [|[|[|c]]]; [..|lia]); intros Hd; vm_compute; try reflexivity;
    vm_compute in Hd; lia.
Qed.

Lemma episode_never_raises_witness :
  exists sr w', run_episode wide_env 5 wide_world = Ok sr w'.
Proof.
  destruct (episode_never_raises wide_env 3 wide_model 5 wide_world) as [H|H].
  - exact wide_helper_usable.
  - split; intros; vm_compute; lia.
  - exact H.
  - vm_compute in H. discriminate H.
Defined.

(** X11.  After a successful construction with at least two directions and
    one character, a sound backend and an environment whose observations
    are characters or the blank, [solve] raises nothing: [UnsatException]
    is caught, every model satisfies the base constraints, so no lookup
    fails, and [try_model] always has a reward to compare. *)
Theorem solve_never_raises {E : Type} (backend : list formula -> option assignment)
    (env : AlgorithmicEnv E) (n : nat) (e0 : E) (w0 : World E)
    (efuel fuel : nat) (maxiters : option nat) :
  sound backend ->
  AlgorithmicSolver_init env n e0 = Ok tt w0 ->
  2 <= (action_space env).1.1 -> 1 <= (action_space env).2 ->
  observes_in_range env (action_space env).2 ->
  (exists b w', solve backend env efuel fuel maxiters w0 = Ok b w') \/
  solve backend env efuel fuel maxiters w0 = NoFuel.
Proof.
  intros Hsound Hinit Hdirs Hchars Hobs.
  pose proof (init_Ok env n e0 tt w0 Hinit) as Hi. cbv zeta in Hi.
  destruct Hi as (Hnc & Hns & Hb & Hdom & _ & _ & _ & _ & Hass).
  assert (Hbase : based (action_space env).1.1 (helper w0)).
  { intros name s c Hs Hc Hd. rewrite Hass. apply list_elem_of_bind.
    exists name. split; [|destruct name; set_solver].
    apply (pair_constraints_built (action_space env).1.1 (helper w0)); [done|]. eauto 10. }
  pose proof (solve_loop_total backend env (action_space env).1.1 (helper w0) Hsound Hb Hbase
                Hdirs ltac:(lia) (Hdom state_rule) ltac:(by rewrite Hnc)
                efuel fuel maxiters 0 w0 ltac:(done) ltac:(done)) as H.
  unfold solve. destruct (solve_loop backend env efuel fuel maxiters 0 w0) as [b w'|e w'|].
  - left. by eexists _, _.
  - done.
  - by right.
Qed.

Lemma solve_never_raises_witness :
  exists b w',
    solve (backend_for writing_env 1) writing_env 5 5 None (fresh_world writing_env 1) = Ok b w'.
Proof.
  destruct (solve_never_raises (backend_for writing_env 1) writing_env 1 0
              (fresh_world writing_env 1) 5 5 None) as [H|H].
  - apply enum_backend_sound.
  - vm_compute. reflexivity.
  - simpl. lia.
  - simpl. lia.
  - split; intros; simpl; lia.
  - exact H.
  - vm_compute in H. discriminate H.
Defined.

(** ** Enumerated policies *)

Lemma length_bind_const {A B} (f : A -> list B) (l : list A) (m : nat) :
  (forall x, x ∈ l -> length (f x) = m) -> length (l ≫= f) = length l * m.
Proof.
  induction l as [|x l IH]; intros Hf; [done|].
  rewrite bind_cons, length_app, IH, Hf; [simpl; lia|by left|].
  intros y Hy. apply Hf. by right.
Qed.

Lemma lookup_bind_const {A B} (f : A -> list B) (l : list A) (m s o : nat) :
  (forall x, x ∈ l -> length (f x) = m) -> o < m ->
  (l ≫= f) !! (s * m + o) = l !! s ≫= fun x => f x !! o.
Proof.
  revert s. induction l as [|x l IH]; intros s Hf Ho; [done|].
  rewrite bind_cons. destruct s as [|s]; simpl.
  - rewrite lookup_app_l; [done|]. rewrite Hf; [done|by left].
  - rewrite lookup_app_r by (rewrite Hf; [lia|by left]).
    rewrite Hf by (by left). replace (m + s * m + o - m) with (s * m + o) by lia.
    apply IH; [|done]. intros y Hy. apply Hf. by right.
Qed.

Lemma length_product_repeat {A} (codomain : list A) k :
  length (Enumerator.product_repeat codomain k) = length codomain ^ k.
Proof.
  induction k as [|k IH]; [done|]. cbn [Enumerator.product_repeat].
  rewrite (length_bind_const _ _ (length codomain ^ k)).
  - by rewrite Nat.pow_succ_r'.
  - intros x _. by rewrite length_fmap.
Qed.

Lemma elem_of_product_repeat {A} (codomain : list A) k image :
  image ∈ Enumerator.product_repeat codomain k <->
  length image = k /\ Forall (fun v => v ∈ codomain) image.
Proof.
  revert image. induction k as [|k IH]; intros image; cbn [Enumerator.product_repeat].
  - rewrite list_elem_of_singleton. split.
    + intros ->. by split.
    + intros [Hl _]. by destruct image.
  - rewrite list_elem_of_bind. split.
    + intros (x & Hin & Hx). apply list_elem_of_fmap in Hin as (t & -> & Ht).
      apply IH in Ht as [<- Hall]. split; [done|]. by apply Forall_cons_2.
    + intros [Hl Hall]. destruct image as [|x t]; [done|].
      apply Forall_cons_1 in Hall as [Hx Hall]. exists x. split; [|done].
      apply list_elem_of_fmap. exists t. split; [done|]. apply IH. split; [|done].
      simpl in Hl. lia.
Qed.

Lemma length_enumerate_subpolicies {A} self (codomain : list A) n :
  length (Enumerator._enumerate_subpolicies self codomain n)
  = length codomain ^ n + length codomain ^ (n * Enumerator.n_inputs self).
Proof.
  unfold Enumerator._enumerate_subpolicies.
  by rewrite length_app, !length_fmap, !length_product_repeat.
Qed.

(** X12.  [_enumerate_subpolicies] yields the policies that ignore the
    observation and then those that read it, so for [n] states the
    enumerator produces [|codomain|^n] more direction and output policies
    than the [ndpols] and [nopols] it logs, and as many more state policies
    unless [n = 1], where the single constant policy is produced; the
    policies yielded are all combinations of the three. *)
Theorem enumerated_more_than_logged {E : Type} (env : AlgorithmicEnv E) (n : nat) :
  let self := Enumerator.PolicyEnumerator_init env in
  let counts := Enumerator.logged_counts self n in
  let nd := length (Enumerator.enumerate_direction_policies self n) in
  let no := length (Enumerator.enumerate_output_policies self n) in
  let ns := length (Enumerator.enumerate_state_policies self n) in
  nd = Enumerator.pc_direction counts + (action_space env).1.1 ^ n /\
  no = Enumerator.pc_output counts + ((action_space env).2 + 1) ^ n /\
  ns = (if decide (n = 1) then 1 else Enumerator.pc_state counts + n ^ n) /\
  length (Enumerator.enumerate_policies_with_nstates self n) = nd * (no * ns).
Proof.
  cbv zeta. unfold Enumerator.enumerate_policies_with_nstates,
    Enumerator.enumerate_direction_policies, Enumerator.enumerate_output_policies,
    Enumerator.enumerate_state_policies, Enumerator.logged_counts,
    Enumerator.PolicyEnumerator_init.
  destruct (action_space env) as [[dirs_n wm] nc].
  cbn [Enumerator.dirs Enumerator.chars_plus Enumerator.n_inputs Enumerator.n_outputs
       Enumerator.pc_direction Enumerator.pc_output Enumerator.pc_state fst snd].
  split; [|split; [|split]].
  - rewrite length_enumerate_subpolicies, length_seq. cbn [Enumerator.n_inputs]. lia.
  - rewrite length_enumerate_subpolicies. cbn [Enumerator.n_inputs length].
    rewrite length_fmap, length_seq. replace (S nc) with (nc + 1) by lia. lia.
  - destruct (decide (n = 1)); [done|].
    rewrite length_enumerate_subpolicies, length_seq. cbn [Enumerator.n_inputs]. lia.
  - set (dps := Enumerator._enumerate_subpolicies _ (seq 0 dirs_n) n).
    set (ops := Enumerator._enumerate_subpolicies _ (_ :: _) n).
    set (sps := if decide (n = 1) then _ else _).
    rewrite (length_bind_const _ dps (length ops * length sps)); [done|]. intros dp _.
    rewrite (length_bind_const _ ops (length sps)); [done|]. intros op _.
    rewrite (length_bind_const _ sps 1); [lia|]. done.
Qed.

Lemma subpolicy_in_range {A} self (codomain : list A) n p obs state :
  p ∈ Enumerator._enumerate_subpolicies self codomain n ->
  state < n -> obs < Enumerator.n_inputs self ->
  exists v, p obs state = Some v /\ v ∈ codomain.
Proof.
  intros Hp Hs Ho. unfold Enumerator._enumerate_subpolicies in Hp.
  apply elem_of_app in Hp as [Hp|Hp];
    apply list_elem_of_fmap in Hp as (image & -> & [Hl Hall]%elem_of_product_repeat).
  - unfold Enumerator.simple_policy_factory.
    destruct (lookup_lt_is_Some_2 image state ltac:(lia)) as [v Hv].
    exists v. split; [done|]. rewrite list.Forall_forall in Hall. apply Hall.
    by eapply list_elem_of_lookup_2.
  - unfold Enumerator.policy_factory.
    destruct (lookup_lt_is_Some_2 image (state * Enumerator.n_inputs self + obs) ltac:(nia))
      as [v Hv].
    exists v. split; [done|]. rewrite list.Forall_forall in Hall. apply Hall.
    by eapply list_elem_of_lookup_2.
Qed.

(** What an enumerated policy answers on a state and an observation of its
    tables. *)
Lemma enumerated_policy_answers {E : Type} (env : AlgorithmicEnv E) n pol obs state :
  pol ∈ Enumerator.enumerate_policies_with_nstates (Enumerator.PolicyEnumerator_init env) n ->
  state < n -> obs < (action_space env).2 + 1 ->
  exists d o st,
    Enumerator.direction_policy pol obs state = Some d /\
    Enumerator.output_policy pol obs state = Some o /\
    Enumerator.state_policy pol obs state = Some st /\
    d < (action_space env).1.1 /\
    (o = (-1)%Z \/ (0 <= o < Z.of_nat (action_space env).2)%Z) /\
    st < n.
Proof.
  intros Hpol Hs Ho.
  set (self := Enumerator.PolicyEnumerator_init env) in *.
  assert (Hdirs : Enumerator.dirs self = seq 0 (action_space env).1.1)
    by (unfold self, Enumerator.PolicyEnumerator_init; by destruct (action_space env) as [[? ?] ?]).
  assert (Hcp : Enumerator.chars_plus self = (-1)%Z :: (Z.of_nat <$> seq 0 (action_space env).2))
    by (unfold self, Enumerator.PolicyEnumerator_init; by destruct (action_space env) as [[? ?] ?]).
  assert (Hni : Enumerator.n_inputs self = (action_space env).2 + 1)
    by (unfold self, Enumerator.PolicyEnumerator_init; by destruct (action_space env) as [[? ?] ?]).
  rewrite <- Hni in Ho. clearbody self.
  unfold Enumerator.enumerate_policies_with_nstates in Hpol.
  apply list_elem_of_bind in Hpol as (dp & Hpol & Hdp).
  apply list_elem_of_bind in Hpol as (op & Hpol & Hop).
  apply list_elem_of_bind in Hpol as (sp & Hpol & Hsp).
  apply list_elem_of_singleton in Hpol as ->.
  destruct (subpolicy_in_range _ _ _ _ _ _ Hdp Hs Ho) as (d & Hd & Hdin).
  destruct (subpolicy_in_range _ _ _ _ _ _ Hop Hs Ho) as (o & Hout & Hoin).
  assert (Hst : exists st, sp obs state = Some st /\ st < n).
  { unfold Enumerator.enumerate_state_policies in Hsp.
    destruct (decide (n = 1)) as [->|Hn].
    - apply list_elem_of_singleton in Hsp as ->. exists 0. split; [done|lia].
    - destruct (subpolicy_in_range _ _ _ _ _ _ Hsp Hs Ho) as (st & Hst & Hin).
      exists st. split; [done|]. apply elem_of_seq in Hin. lia. }
  destruct Hst as (st & Hst & Hlt).
  rewrite Hdirs in Hdin. apply elem_of_seq in Hdin.
  exists d, o, st. cbn [Enumerator.direction_policy Enumerator.output_policy
    Enumerator.state_policy].
  split; [done|]. split; [done|]. split; [done|]. split; [lia|]. split; [|done].
  rewrite Hcp in Hoin. apply elem_of_cons in Hoin as [->|Hoin]; [by left|].
  apply list_elem_of_fmap in Hoin as (k & -> & Hk). apply elem_of_seq in Hk. right. lia.
Qed.

(** X13.  Every policy enumerated for [n] states answers every state below
    [n] and every observation without [IndexError]: its action has a
    direction of the environment and either writes nothing, as [(d, 0, 0)],
    or writes a character of the environment, and its next state is below
    [n]. *)
Theorem enumerated_policy_in_range {E : Type} (env : AlgorithmicEnv E) (n : nat)
    (pol : Enumerator.AlgorithmicPolicy) (obs state : nat) :
  pol ∈ Enumerator.enumerate_policies_with_nstates (Enumerator.PolicyEnumerator_init env) n ->
  state < n -> obs < (action_space env).2 + 1 ->
  exists act st,
    Enumerator.get_action pol obs state = Some act /\
    Enumerator.state_policy pol obs state = Some st /\
    st < n /\
    act.1.1 < (action_space env).1.1 /\
    ((act.1.2 = 0 /\ act.2 = 0%Z) \/
     (act.1.2 = 1 /\ (0 <= act.2 < Z.of_nat (action_space env).2)%Z)).
Proof.
  intros Hpol Hs Ho.
  destruct (enumerated_policy_answers env n pol obs state Hpol Hs Ho)
    as (d & o & st & Hd & Hout & Hst & Hdlt & Hor & Hlt).
  unfold Enumerator.get_action. rewrite Hd, Hout. simpl.
  eexists _, st. split; [done|]. split; [done|]. split; [done|].
  unfold BruteForce.NO_OUTPUT. destruct Hor as [->|Hrange].
  - rewrite decide_True by done. simpl. split; [lia|]. by left.
  - rewrite decide_False by lia. simpl. split; [lia|]. right. split; [done|]. lia.
Qed.

Lemma enumerated_policy_in_range_witness :
  exists pol act st,
    pol ∈ Enumerator.enumerate_policies_with_nstates
            (Enumerator.PolicyEnumerator_init wide_env) 2 /\
    Enumerator.get_action pol 2 1 = Some act /\
    Enumerator.state_policy pol 2 1 = Some st /\
    st < 2 /\ act.1.1 < 3.
Proof.
  assert (H : exists pol,
            pol ∈ Enumerator.enumerate_policies_with_nstates
                    (Enumerator.PolicyEnumerator_init wide_env) 2).
  { eexists. unfold Enumerator.enumerate_policies_with_nstates.
    apply list_elem_of_bind. eexists. split; [|left].
    apply list_elem_of_bind. eexists. split; [|left].
    apply list_elem_of_bind. eexists. split; [|left]. left. }
  destruct H as (pol & H).
  destruct (enumerated_policy_in_range wide_env 2 pol 2 1 H) as (act & st & Ha & Hs & Hl & Hd & _).
  - lia.
  - simpl. lia.
  - exists pol, act, st. exact (conj H (conj Ha (conj Hs (conj Hl Hd)))).
Defined.

Lemma subpolicies_exhaustive {A} self (codomain : list A) n (f : nat -> nat -> A) :
  (forall obs state, state < n -> obs < Enumerator.n_inputs self -> f obs state ∈ codomain) ->
  exists p, p ∈ Enumerator._enumerate_subpolicies self codomain n /\
    forall obs state, state < n -> obs < Enumerator.n_inputs self ->
                      p obs state = Some (f obs state).
Proof.
  intros Hf. set (ni := Enumerator.n_inputs self) in *.
  set (image := seq 0 n ≫= fun s => (fun o => f o s) <$> seq 0 ni).
  exists (Enumerator.policy_factory image ni). split.
  - unfold Enumerator._enumerate_subpolicies. apply elem_of_app. right.
    apply list_elem_of_fmap. exists image. split; [done|].
    apply elem_of_product_repeat. split.
    + unfold image. rewrite (length_bind_const _ _ ni), length_seq; [done|].
      intros s _. by rewrite length_fmap, length_seq.
    + apply list.Forall_forall. intros v Hv. unfold image in Hv.
      apply list_elem_of_bind in Hv as (s & Hv & Hsin).
      apply list_elem_of_fmap in Hv as (o & -> & Hoin).
      apply elem_of_seq in Hsin, Hoin. apply Hf; lia.
  - intros obs state Hs Ho. unfold Enumerator.policy_factory, image.
    rewrite (lookup_bind_const _ _ ni) by
      (try done; intros s _; by rewrite length_fmap, length_seq).
    rewrite lookup_seq_lt by done. simpl.
    rewrite list_lookup_fmap, lookup_seq_lt by done. done.
Qed.

(** X14.  The enumeration is exhaustive: for every [n] between 1 and
    [max_states] and every choice of direction, output and next state for
    each state below [n] and each observation, [enum] yields a policy that
    makes exactly these choices. *)
Theorem enumeration_exhaustive {E : Type} (env : AlgorithmicEnv E) (max_states n : nat)
    (fd : nat -> nat -> nat) (fo : nat -> nat -> Z) (fs : nat -> nat -> nat) :
  1 <= n <= max_states ->
  (forall obs state, state < n -> obs < (action_space env).2 + 1 ->
     fd obs state < (action_space env).1.1 /\
     (-1 <= fo obs state < Z.of_nat (action_space env).2)%Z /\
     fs obs state < n) ->
  exists pol,
    pol ∈ Enumerator.enum (Enumerator.PolicyEnumerator_init env) max_states /\
    forall obs state, state < n -> obs < (action_space env).2 + 1 ->
      Enumerator.direction_policy pol obs state = Some (fd obs state) /\
      Enumerator.output_policy pol obs state = Some (fo obs state) /\
      Enumerator.state_policy pol obs state = Some (fs obs state).
Proof.
  intros Hn Hf.
  set (self := Enumerator.PolicyEnumerator_init env) in *.
  assert (Hdirs : Enumerator.dirs self = seq 0 (action_space env).1.1)
    by (unfold self, Enumerator.PolicyEnumerator_init; by destruct (action_space env) as [[? ?] ?]).
  assert (Hcp : Enumerator.chars_plus self = (-1)%Z :: (Z.of_nat <$> seq 0 (action_space env).2))
    by (unfold self, Enumerator.PolicyEnumerator_init; by destruct (action_space env) as [[? ?] ?]).
  assert (Hni : Enumerator.n_inputs self = (action_space env).2 + 1)
    by (unfold self, Enumerator.PolicyEnumerator_init; by destruct (action_space env) as [[? ?] ?]).
  clearbody self. rewrite <- Hni in *.
  destruct (subpolicies_exhaustive self (Enumerator.dirs self) n fd) as (dp & Hdp & Hdpv).
  { intros obs state Hs Ho. rewrite Hdirs. apply elem_of_seq.
    destruct (Hf obs state Hs Ho) as (? & _). lia. }
  destruct (subpolicies_exhaustive self (Enumerator.chars_plus self) n fo) as (op & Hop & Hopv).
  { intros obs state Hs Ho. rewrite Hcp.
    destruct (Hf obs state Hs Ho) as (_ & Hfo & _).
    destruct (decide (fo obs state = (-1)%Z)) as [->|Hne]; [by left|right].
    apply list_elem_of_fmap. exists (Z.to_nat (fo obs state)). split; [lia|].
    apply elem_of_seq. lia. }
  assert (Hsp : exists sp, sp ∈ Enumerator.enumerate_state_policies self n /\
            forall obs state, state < n -> obs < Enumerator.n_inputs self ->
                              sp obs state = Some (fs obs state)).
  { unfold Enumerator.enumerate_state_policies. destruct (decide (n = 1)) as [->|Hne].
    - eexists. split; [by left|]. intros obs state Hs Ho. simpl.
      destruct (Hf obs state Hs Ho) as (_ & _ & Hfs). f_equal. lia.
    - apply subpolicies_exhaustive. intros obs state Hs Ho. apply elem_of_seq.
      destruct (Hf obs state Hs Ho) as (_ & _ & Hfs). lia. }
  destruct Hsp as (sp & Hsp & Hspv).
  exists {| Enumerator.direction_policy := dp; Enumerator.output_policy := op;
            Enumerator.state_policy := sp |}.
  split.
  - unfold Enumerator.enum. apply list_elem_of_bind. exists n. split; [|apply elem_of_seq; lia].
    unfold Enumerator.enumerate_policies_with_nstates.
    apply list_elem_of_bind. exists dp. split; [|done].
    apply list_elem_of_bind. exists op. split; [|done].
    apply list_elem_of_bind. exists sp. split; [|done]. by left.
  - intros obs state Hs Ho. simpl. by rewrite Hdpv, Hopv, Hspv.
Qed.

Lemma enumeration_exhaustive_witness :
  exists pol,
    pol ∈ Enumerator.enum (Enumerator.PolicyEnumerator_init wide_env) 2 /\
    forall obs state, state < 2 -> obs < 3 ->
      Enumerator.direction_policy pol obs state = Some ((obs + state) mod 3) /\
      Enumerator.output_policy pol obs state = Some (Z.of_nat obs - 1)%Z /\
      Enumerator.state_policy pol obs state = Some (1 - state).
Proof.
  apply (enumeration_exhaustive wide_env 2 2
           (fun obs state => (obs + state) mod 3)
           (fun obs _ => (Z.of_nat obs - 1)%Z)
           (fun _ state => 1 - state)).
  - lia.
  - intros obs state Hs Ho. cbn [wide_env action_space fst snd] in *.
    split; [apply Nat.mod_upper_bound; lia|lia].
Defined.

(** X15.  Every policy that ignores the observation is produced a second
    time: for each image of [n_states] values there is an image of
    [n_states * n_inputs] values whose policy answers the same on every
    state and observation. *)
Theorem simple_policies_are_repeated {A : Type} (self : Enumerator.PolicyEnumerator)
    (codomain : list A) (n : nat) (image : list A) :
  image ∈ Enumerator.product_repeat codomain n ->
  exists image',
    image' ∈ Enumerator.product_repeat codomain (n * Enumerator.n_inputs self) /\
    forall obs state, state < n -> obs < Enumerator.n_inputs self ->
      Enumerator.policy_factory image' (Enumerator.n_inputs self) obs state
      = Enumerator.simple_policy_factory image obs state.
Proof.
  intros [Hl Hall]%elem_of_product_repeat. set (ni := Enumerator.n_inputs self).
  exists (image ≫= fun v => replicate ni v). split.
  - apply elem_of_product_repeat. split.
    + rewrite (length_bind_const _ _ ni), Hl; [done|]. intros v _. by rewrite length_replicate.
    + apply list.Forall_forall. intros v Hv.
      apply list_elem_of_bind in Hv as (x & Hv & Hx).
      apply elem_of_replicate in Hv as [-> _].
      rewrite list.Forall_forall in Hall. by apply Hall.
  - intros obs state Hs Ho. unfold Enumerator.policy_factory, Enumerator.simple_policy_factory.
    rewrite (lookup_bind_const _ _ ni) by (try done; intros v _; by rewrite length_replicate).
    destruct (image !! state) as [v|]; [|done]. simpl.
    by apply lookup_replicate_2.
Qed.

Lemma simple_policies_are_repeated_witness :
  exists image',
    image' ∈ Enumerator.product_repeat [0; 1] 4 /\
    forall obs state, state < 2 -> obs < 2 ->
      Enumerator.policy_factory image' 2 obs state
      = Enumerator.simple_policy_factory [1; 0] obs state.
Proof.
  apply (simple_policies_are_repeated (Enumerator.PolicyEnumerator_init failing_env) [0; 1] 2
           [1; 0]).
  apply elem_of_product_repeat. split; [done|].
  repeat apply Forall_cons_2; [..|apply Forall_nil_2]; set_solver.
Defined.

(** ** The verdict of the brute-force evaluation *)

(** X16.  [AlgorithmicPolicy.run]: a countdown of 0 returns [True] at once
    without running an episode; [True] is returned only after at least as
    many loop passes as the countdown; and whenever an episode was run, the
    verdict is the success flag of the last episode, which ended in the
    environment state returned and, for [True], reached the reward
    threshold. *)
Theorem brute_force_run_verdict {E : Type} (env : AlgorithmicEnv E)
    (pol : BruteForce.AlgorithmicPolicy) (efuel fuel n : nat) (e e' : E) (b : bool) :
  BruteForce.run_loop env pol efuel fuel n e = Ok b e' ->
  (n = 0 -> b = true /\ e' = e) /\
  (b = true -> n <= fuel) /\
  (0 < n -> exists e1 r,
     BruteForce.run_episode env pol efuel e1 = Ok (b, r) e' /\
     (b = true -> Qle_bool (reward_threshold (spec env)) r = true)).
Proof.
  revert n e. induction fuel as [|fuel IH]; intros n e H; simpl in H.
  - destruct (decide (n = 0)) as [->|Hn]; [|done].
    unfold ret in H. injection H as <- <-. split; [done|]. split; lia.
  - destruct (decide (n = 0)) as [->|Hn].
    { unfold ret in H. injection H as <- <-. split; [done|]. split; lia. }
    split; [done|].
    apply bind_Ok in H as ([success reward] & e1 & Hep & H).
    destruct success; simpl in H.
    + destruct (Qle_bool (reward_threshold (spec env)) reward) eqn:Hq;
        apply IH in H as (Hzero & Hle & Hlast).
      * split; [intros Hb; specialize (Hle Hb); lia|]. intros _.
        destruct (decide (n - 1 = 0)) as [Hz|Hz].
        -- destruct (Hzero Hz) as [-> ->]. eauto.
        -- apply Hlast. lia.
      * split; [intros Hb; specialize (Hle Hb); lia|]. intros _. apply Hlast. lia.
    + unfold ret in H. injection H as <- <-. split; [done|]. intros _.
      exists e, reward. split; [done|]. done.
Qed.

Lemma brute_force_run_verdict_witness :
  exists e',
    BruteForce.run generous_env writing_policy 5 5 0 = Ok true e' /\
    exists e1 r,
      BruteForce.run_episode generous_env writing_policy 5 e1 = Ok (true, r) e' /\
      (true = true -> Qle_bool (reward_threshold (spec generous_env)) r = true).
Proof.
  assert (H : exists e', BruteForce.run generous_env writing_policy 5 5 0 = Ok true e')
    by (eexists; vm_compute; reflexivity).
  destruct H as (e' & H).
  destruct (brute_force_run_verdict generous_env writing_policy 5 5 2 0 e' true H)
    as (_ & _ & Hlast).
  exists e'. exact (conj H (Hlast ltac:(lia))).
Defined.

(** ** The search over the enumerated policies *)

Section SearchSafety.
Context {E : Type}.
Variable env : AlgorithmicEnv E.
Hypothesis Hobs : observes_in_range env (action_space env).2.

Lemma search_episode_loop_answers n pol fuel :
  pol ∈ Enumerator.enumerate_policies_with_nstates (Enumerator.PolicyEnumerator_init env) n ->
  forall obs state total e,
    state < n -> obs <= (action_space env).2 ->
    match Search.episode_loop env pol fuel obs state total e with
    | Search.IndexError _ => False
    | _ => True
    end.
Proof using Hobs.
  intros Hpol. induction fuel as [|fuel IH]; intros obs state total e Hs Ho; [done|].
  cbn [Search.episode_loop].
  destruct (enumerated_policy_answers env n pol obs state Hpol Hs ltac:(lia))
    as (d & o & st & Hd & Hout & Hst & _ & _ & Hlt).
  unfold Enumerator.get_action. rewrite Hd, Hout, Hst. cbn [mbind option_bind].
  match goal with
  | |- context [step env e ?act] =>
      pose proof (proj2 Hobs e act) as Hstep;
      destruct (step env e act) as [[[obs' reward] done] e']
  end.
  destruct done; [done|]. apply IH; [done|]. simpl in Hstep. lia.
Qed.

Lemma search_run_loop_answers n pol efuel fuel :
  1 <= n ->
  pol ∈ Enumerator.enumerate_policies_with_nstates (Enumerator.PolicyEnumerator_init env) n ->
  forall countdown e,
    match Search.run_loop env pol efuel fuel countdown e with
    | Search.IndexError _ => False
    | _ => True
    end.
Proof using Hobs.
  intros Hn Hpol. induction fuel as [|fuel IH]; intros countdown e; cbn [Search.run_loop].
  - by destruct (decide (countdown = 0)).
  - destruct (decide (countdown = 0)); [done|].
    unfold Search.run_episode.
    pose proof (proj1 Hobs e) as Hreset.
    destruct (reset env e) as [obs e0]. simpl in Hreset.
    pose proof (search_episode_loop_answers n pol efuel Hpol obs 0 0%Q e0 ltac:(lia) Hreset)
      as Hep.
    destruct (Search.episode_loop env pol efuel obs 0 0%Q e0) as [[success reward] e1|e1|];
      [|done|done].
    destruct success; cbn [negb]; [|done].
    destruct (Qle_bool (reward_threshold (spec env)) reward); apply IH.
Qed.
End SearchSafety.

(** X17.  With an environment whose observations are characters or the
    blank, no enumerated policy is ever called outside its image:
    [solve_env] returns, unless it is still running when the fuel ends, and
    never fails with [IndexError]. *)
Theorem solve_env_never_index_error {E : Type} (env : AlgorithmicEnv E)
    (efuel fuel max_states : nat) (e : E) :
  observes_in_range env (action_space env).2 ->
  (exists b s', Search.solve_env env efuel fuel max_states e = Search.Done b s') \/
  Search.solve_env env efuel fuel max_states e = Search.Unfinished.
Proof.
  intros Hobs. unfold Search.solve_env.
  set (pols := Enumerator.enum (Enumerator.PolicyEnumerator_init env) max_states).
  assert (Hall : forall pol, pol ∈ pols ->
            exists n, 1 <= n /\
              pol ∈ Enumerator.enumerate_policies_with_nstates
                      (Enumerator.PolicyEnumerator_init env) n).
  { intros pol Hpol. unfold pols, Enumerator.enum in Hpol.
    apply list_elem_of_bind in Hpol as (n & Hpol & Hn). apply elem_of_seq in Hn.
    exists n. split; [lia|done]. }
  clearbody pols.
  assert (H : match Search.solve_env_loop env efuel fuel pols 0%N (e, []) with
              | Search.IndexError _ => False
              | _ => True
              end).
  { generalize 0%N as i. generalize (e, @nil N) as s.
    induction pols as [|pol pols IH]; intros s i; cbn [Search.solve_env_loop]; [done|].
    destruct (Hall pol) as (n & Hn & Hpol); [by left|].
    pose proof (search_run_loop_answers env Hobs n pol efuel fuel Hn Hpol
                  (trials (spec env)) s.1) as Hrun.
    unfold Search.run.
    destruct (Search.run_loop env pol efuel fuel (trials (spec env)) s.1) as [[] e1|e1|];
      [done| |done|done].
    apply IH. intros pol' Hpol'. apply Hall. by right. }
  destruct (Search.solve_env_loop env efuel fuel pols 0%N (e, [])) as [b s'|s'|].
  - left. by eexists _, _.
  - done.
  - by right.
Qed.

Lemma solve_env_never_index_error_witness :
  exists b s', Search.solve_env writing_env 5 5 1 0 = Search.Done b s'.
Proof.
  destruct (solve_env_never_index_error writing_env 5 5 1 0) as [H|H].
  - split; intros; simpl; lia.
  - exact H.
  - vm_compute in H. discriminate H.
Defined.

(** X18.  [solve_env] returns [True] only by a policy of the enumeration
    whose [run] returned [True], every policy before it having been run and
    having failed, and it returns with the environment as that run left
    it; it returns [False] only after every enumerated policy has been run
    and has failed, and at once for [max_states = 0]. *)
Theorem solve_env_verdict {E : Type} (env : AlgorithmicEnv E) (efuel fuel max_states : nat)
    (e : E) (b : bool) (s' : E * list N) :
  Search.solve_env env efuel fuel max_states e = Search.Done b s' ->
  let pols := Enumerator.enum (Enumerator.PolicyEnumerator_init env) max_states in
  (b = true ->
   exists pre pol post e1,
     pols = pre ++ pol :: post /\
     Search.run env pol efuel fuel e1 = Search.Done true s'.1 /\
     Forall (fun p => exists e2 e3, Search.run env p efuel fuel e2 = Search.Done false e3) pre) /\
  (b = false ->
   Forall (fun p => exists e2 e3, Search.run env p efuel fuel e2 = Search.Done false e3) pols /\
   (max_states = 0 -> s' = (e, []))).
Proof.
  intros H. cbv zeta. unfold Search.solve_env in H.
  assert (Hzero : max_states = 0 ->
            Enumerator.enum (Enumerator.PolicyEnumerator_init env) max_states = []).
  { by intros ->. }
  revert H Hzero.
  generalize (Enumerator.enum (Enumerator.PolicyEnumerator_init env) max_states) as pols.
  generalize 0%N as i. generalize (e, @nil N) as s.
  intros s i pols. revert s i.
  induction pols as [|pol pols IH]; intros s i H Hzero; cbn [Search.solve_env_loop] in H.
  - injection H as <- <-. split; [done|]. intros _. split; [constructor|done].
  - assert (Hne : max_states <> 0) by (intros Hz; by specialize (Hzero Hz)).
    destruct (Search.run env pol efuel fuel s.1) as [[] e1|e1|] eqn:Hrun; [| |done|done].
    + injection H as <- <-. split; [|done]. intros _.
      exists [], pol, pols, s.1. split; [done|]. split; [done|]. constructor.
    + apply IH in H as [Htrue Hfalse]; [|done]. split.
      * intros Hb. destruct (Htrue Hb) as (pre & p & post & e2 & -> & Hp & Hpre).
        exists (pol :: pre), p, post, e2. split; [done|]. split; [done|].
        constructor; [by eexists _, _|done].
      * intros Hb. destruct (Hfalse Hb) as [Hall _]. split; [|done].
        constructor; [by eexists _, _|done].
Qed.

Lemma solve_env_verdict_witness :
  exists s' pre pol post e1,
    Search.solve_env writing_env 5 5 1 0 = Search.Done true s' /\
    Enumerator.enum (Enumerator.PolicyEnumerator_init writing_env) 1 = pre ++ pol :: post /\
    Search.run writing_env pol 5 5 e1 = Search.Done true s'.1.
Proof.
  assert (H : exists s', Search.solve_env writing_env 5 5 1 0 = Search.Done true s')
    by (eexists; vm_compute; reflexivity).
  destruct H as (s' & H).
  destruct (solve_env_verdict writing_env 5 5 1 0 true s' H) as [Ht _].
  destruct (Ht eq_refl) as (pre & pol & post & e1 & Hsplit & Hrun & _).
  exists s', pre, pol, post, e1. exact (conj H (conj Hsplit Hrun)).
Defined.

(** ** The two embeddings of [AlgorithmicPolicy.run] agree *)

(** On a policy whose functions never fail, the search's [run] is the [run]
    of the evaluation loop above. *)
Lemma search_run_of_total {E : Type} (env : AlgorithmicEnv E)
    (pol : BruteForce.AlgorithmicPolicy) (efuel fuel n : nat) (e : E) :
  Search.run_loop env (Search.of_total pol) efuel fuel n e
  = match BruteForce.run_loop env pol efuel fuel n e with
    | Ok b e' => Search.Done b e'
    | Raise _ e' => Search.IndexError e'
    | NoFuel => Search.Unfinished
    end.
Proof.
  assert (Hloop : forall f obs state total e0,
    Search.episode_loop env (Search.of_total pol) f obs state total e0
    = match BruteForce.episode_loop env pol f obs state total e0 with
      | Ok r e' => Search.Done r e'
      | Raise _ e' => Search.IndexError e'
      | NoFuel => Search.Unfinished
      end).
  { induction f as [|f IH]; intros obs state total e0; [done|].
    cbn [Search.episode_loop BruteForce.episode_loop].
    change (Enumerator.get_action (Search.of_total pol) obs state)
      with (Some (BruteForce.get_action pol obs state)).
    change (Enumerator.state_policy (Search.of_total pol) obs state)
      with (Some (BruteForce.state_policy pol obs state)).
    unfold bind, BruteForce.env_call.
    destruct (step env e0 (BruteForce.get_action pol obs state)) as [[[obs' reward] done] e'].
    cbn [fst snd]. destruct done; [done|]. apply IH. }
  revert n e. induction fuel as [|fuel IH]; intros n e;
    cbn [Search.run_loop BruteForce.run_loop].
  - by destruct (decide (n = 0)).
  - destruct (decide (n = 0)); [done|].
    unfold Search.run_episode, BruteForce.run_episode, bind, BruteForce.env_call.
    destruct (reset env e) as [obs e0]. rewrite Hloop.
    destruct (BruteForce.episode_loop env pol efuel obs 0 0%Q e0) as [[success reward] e1|x e1|];
      [|done|done].
    destruct success; cbn [negb]; [|done].
    destruct (Qle_bool (reward_threshold (spec env)) reward); apply IH.
Qed.
